(** * quick_contrast: the radial contrast estimate of the coronagraphy notebooks

    The notebooks [nircam_photon_noise_and_contrast.ipynb] and
    [miri_photon_noise_and_contrast.ipynb] define the same function
    [quick_contrast(occulted_image, unocculted_image, n_annuli=20)].
    This development embeds it, together with the numpy and scipy calls it
    makes, and states the properties of the design document about it.

    Number model.  float64 arithmetic is idealised as arithmetic over the
    real numbers [R]: pixel values, distances and bin edges are reals, and
    [fftconvolve] is the exact linear convolution it approximates.  The only
    place where the code can produce a non-finite value from finite inputs is
    the final division by [norm]; that division is modelled with IEEE
    outcomes ([fvalue]). *)

From Stdlib Require Import Reals Lra Lia List Sorted Permutation ZArith Bool Arith.
Import ListNotations.
Local Open Scope R_scope.

(** ** Python exceptions and results *)

Inductive pyerror : Type :=
| ValueError
| IndexError.

Inductive result (A : Type) : Type :=
| Ok (a : A)
| Raise (e : pyerror).

Arguments Ok {A} a.
Arguments Raise {A} e.

Definition bind {A B : Type} (m : result A) (k : A -> result B) : result B :=
  match m with
  | Ok a => k a
  | Raise e => Raise e
  end.

Notation "x <- m ;; k" := (bind m (fun x => k))
  (at level 61, m at next level, right associativity).

Fixpoint mapM {A B : Type} (f : A -> result B) (l : list A) : result (list B) :=
  match l with
  | [] => Ok []
  | a :: l' => b <- f a ;; bs <- mapM f l' ;; Ok (b :: bs)
  end.

(** ** Arrays

    A two-dimensional numpy array of floats: its shape and its element
    accessor.  Only the elements inside the shape are ever read. *)

Record ndarray : Type := mk_array {
  nrows : nat;
  ncols : nat;
  at_ : nat -> nat -> R
}.

Definition shape (a : ndarray) : nat * nat := (nrows a, ncols a).

Definition size (a : ndarray) : nat := (nrows a * ncols a)%nat.

(** The index pairs of a [r] x [c] grid in row-major (C) order, the order in
    which numpy flattens, reduces and boolean-indexes. *)
Definition grid (r c : nat) : list (nat * nat) :=
  flat_map (fun i => map (fun j => (i, j)) (seq 0 c)) (seq 0 r).

Definition ravel (a : ndarray) : list R :=
  map (fun p => at_ a (fst p) (snd p)) (grid (nrows a) (ncols a)).

(** [np.array([])]: what [fftconvolve] returns for an input without
    elements. *)
Definition empty_array : ndarray := mk_array 0 0 (fun _ _ => 0).

(** The value of a float64 after the one division of the code that can leave
    the finite numbers. *)
Inductive fvalue : Type :=
| Fin (x : R)
| PInf
| NInf
| NaN.

(** [x / d] for a float array element [x] and a finite scalar [d], with
    numpy's outcome for a zero divisor (a warning, not an exception). *)
Definition fdiv (x : fvalue) (d : R) : fvalue :=
  match x with
  | Fin v =>
      if Req_dec_T d 0 then
        if Req_dec_T v 0 then NaN
        else if Rlt_dec 0 v then PInf else NInf
      else Fin (v / d)
  | PInf => if Req_dec_T d 0 then PInf else if Rlt_dec 0 d then PInf else NInf
  | NInf => if Req_dec_T d 0 then NInf else if Rlt_dec 0 d then NInf else PInf
  | NaN => NaN
  end.

(** ** numpy *)

(** [np.max] of the flattened array; a zero-size array raises ValueError. *)
Definition np_max (l : list R) : result R :=
  match l with
  | [] => Raise ValueError
  | x :: l' => Ok (fold_left Rmax l' x)
  end.

Definition np_sum (l : list R) : R := fold_right Rplus 0 l.

Definition np_mean (l : list R) : R := np_sum l / INR (length l).

(** [np.std]: the population standard deviation,
    [sqrt(mean(abs(x - x.mean())**2))]; the mean of an empty selection is
    nan. *)
Definition np_std (l : list R) : fvalue :=
  match l with
  | [] => NaN
  | _ :: _ => Fin (sqrt (np_mean (map (fun x => (x - np_mean l) ^ 2) l)))
  end.

(** [np.linspace(start, stop, num)] with the default [endpoint=True]:
    a negative [num] raises ValueError; otherwise [num] samples
    [start + i * step] with [step = (stop - start) / (num - 1)], the last one
    overwritten by [stop] when [num > 1]. *)
Definition linspace_samples (start stop : R) (n : nat) : list R :=
  let step := (stop - start) / INR (n - 1) in
  map (fun i => if ((1 <? n) && (i =? n - 1))%nat then stop
                else start + INR i * step) (seq 0 n).

Definition np_linspace (start stop : R) (num : Z) : result (list R) :=
  if (num <? 0)%Z then Raise ValueError
  else Ok (linspace_samples start stop (Z.to_nat num)).

(** [np.digitize(x, bins)] with the default [right=False] on increasing
    bins: [np.searchsorted(bins, x, side='right')], the index [i] with
    [bins[i-1] <= x < bins[i]]; 0 below the first edge, [len(bins)] from the
    last edge on.  The bins of [quick_contrast] come from
    [np.linspace(0, max, n)] with [max >= 0], so they never decrease and the
    branches of [np.digitize] for decreasing or unordered bins are not
    reached. *)
Fixpoint np_digitize (x : R) (bins : list R) : nat :=
  match bins with
  | [] => 0%nat
  | b :: bins' => if Rlt_dec x b then 0%nat else S (np_digitize x bins')
  end.

(** [np.unique]: the sorted distinct values. *)
Fixpoint insert_unique (a : nat) (l : list nat) : list nat :=
  match l with
  | [] => [a]
  | b :: l' =>
      if (a <? b)%nat then a :: l
      else if (a =? b)%nat then l
      else b :: insert_unique a l'
  end.

Definition np_unique (l : list nat) : list nat :=
  fold_right insert_unique [] l.

(** Boolean-mask indexing [arr[mask]] for a mask of shape [(mr, mc)]: the
    selected elements in row-major order; IndexError when the mask's shape
    is not the array's. *)
Definition mask_select (arr : ndarray) (mr mc : nat) (mask : nat -> nat -> bool)
  : result (list R) :=
  if ((nrows arr =? mr) && (ncols arr =? mc))%nat then
    Ok (map (fun p => at_ arr (fst p) (snd p))
            (filter (fun p => mask (fst p) (snd p)) (grid mr mc)))
  else Raise IndexError.

(** ** scipy.signal.fftconvolve, mode='valid' *)

Definition sum_n (n : nat) (f : nat -> R) : R :=
  np_sum (map f (seq 0 n)).

(** The part of the full linear convolution of [big] with [small] that does
    not rely on zero padding, for [small] no larger than [big] on both
    axes. *)
Definition conv_valid (big small : ndarray) : ndarray :=
  mk_array (nrows big - nrows small + 1) (ncols big - ncols small + 1)
    (fun i j =>
       sum_n (nrows small) (fun a =>
       sum_n (ncols small) (fun b =>
         at_ big (i + a) (j + b)
         * at_ small (nrows small - 1 - a) (ncols small - 1 - b)))).

Definition fits (small big : ndarray) : bool :=
  ((nrows small <=? nrows big) && (ncols small <=? ncols big))%nat.

(** [fftconvolve(in1, in2, mode='valid')] as scipy documents it: "the output
    consists only of those elements that do not rely on the zero-padding; in
    'valid' mode, either in1 or in2 must be at least as large as the other in
    every dimension".  An input without elements gives [np.array([])]; when
    [in2] is the larger one the two are swapped (convolution commutes); when
    neither contains the other, ValueError.  Axes of length one, which recent
    scipy versions handle by broadcasting, are not told apart here; no
    statement below depends on them. *)
Definition fftconvolve (in1 in2 : ndarray) : result ndarray :=
  if ((size in1 =? 0) || (size in2 =? 0))%nat then Ok empty_array
  else if fits in2 in1 then Ok (conv_valid in1 in2)
  else if fits in1 in2 then Ok (conv_valid in2 in1)
  else Raise ValueError.

(** ** quick_contrast *)

Definition kernel_rows : list (list R) :=
  [ [0; 0; 1; 0; 0];   (* simple aperture *)
    [0; 1; 1; 1; 0];
    [1; 1; 1; 1; 1];
    [0; 1; 1; 1; 0];
    [0; 0; 1; 0; 0] ].

Definition kernel : ndarray :=
  mk_array 5 5 (fun a b => nth b (nth a kernel_rows []) 0).

(** [radial]: the distance of pixel [(i, j)] of a [r] x [c] grid from
    [center = shape / 2.]. *)
Definition radial (r c : nat) (i j : nat) : R :=
  sqrt ((INR i - INR r / 2) ^ 2 + (INR j - INR c / 2) ^ 2).

Definition radial_values (r c : nat) : list R :=
  map (fun p => radial r c (fst p) (snd p)) (grid r c).

(** [annuli_inds = np.digitize(radial, radial_bins)]. *)
Definition annuli_inds (r c : nat) (radial_bins : list R) (i j : nat) : nat :=
  np_digitize (radial r c i j) radial_bins.

Definition annuli_values (r c : nat) (radial_bins : list R) : list nat :=
  map (fun p => annuli_inds r c radial_bins (fst p) (snd p)) (grid r c).

(** [np.std(occ_aperture[annuli_inds == a])]. *)
Definition annulus_std (occ_aperture : ndarray) (r c : nat)
    (radial_bins : list R) (a : nat) : result fvalue :=
  sel <- mask_select occ_aperture r c
           (fun i j => (annuli_inds r c radial_bins i j =? a)%nat) ;;
  Ok (np_std sel).

Definition quick_contrast (occulted_image unocculted_image : ndarray)
    (n_annuli : Z) : result (list R * list fvalue) :=
  (* Convolve the unocculted image with an aperture and pick out the max
     as the normalization constant *)
  unocc_aperture <- fftconvolve unocculted_image kernel ;;
  norm <- np_max (ravel unocc_aperture) ;;
  (* Convolve reference-subtract and raw frames with the aperture as well *)
  occ_aperture <- fftconvolve occulted_image kernel ;;
  (* Compute radial distance from center (in pixels) *)
  let r := nrows unocc_aperture in
  let c := ncols unocc_aperture in
  max_radial <- np_max (radial_values r c) ;;
  (* Compute annuli (uniform in radius) *)
  radial_bins <- np_linspace 0 max_radial n_annuli ;;
  (* Standard deviation in each annulus, normalized by the unocculted max *)
  stds <- mapM (annulus_std occ_aperture r c radial_bins)
               (np_unique (annuli_values r c radial_bins)) ;;
  Ok (radial_bins, map (fun s => fdiv s norm) stds).

(** ** Vocabulary of the statements *)

(** The pixels of the convolved grid whose bin index is [a], in row-major
    order, and the values [occ_aperture[annuli_inds == a]] they select. *)
Definition annulus_pixels (r c : nat) (radial_bins : list R) (a : nat)
  : list (nat * nat) :=
  filter (fun p => (annuli_inds r c radial_bins (fst p) (snd p) =? a)%nat)
         (grid r c).

Definition annulus_select (occ_aperture : ndarray) (r c : nat)
    (radial_bins : list R) (a : nat) : list R :=
  map (fun p => at_ occ_aperture (fst p) (snd p))
      (annulus_pixels r c radial_bins a).

(** The edges computed for a [r] x [c] convolved grid. *)
Definition grid_bins (r c : nat) (n_annuli : Z) : list R :=
  linspace_samples 0 (radial r c 0 0) (Z.to_nat n_annuli).

(** The contrast sequence computed from the convolved images and [norm]. *)
Definition contrast_of (occ_aperture : ndarray) (r c : nat) (norm : R)
    (radial_bins : list R) : list fvalue :=
  map (fun a => fdiv (np_std (annulus_select occ_aperture r c radial_bins a)) norm)
      (np_unique (annuli_values r c radial_bins)).




(** [v >= 0] as numpy evaluates it on a float: false for nan. *)
Definition fge0 (v : fvalue) : Prop :=
  match v with
  | Fin x => 0 <= x
  | PInf => True
  | NInf => False
  | NaN => False
  end.

Definition non_finite (v : fvalue) : Prop :=
  match v with
  | Fin _ => False
  | _ => True
  end.

Definition shape_eqb (a b : ndarray) : bool :=
  ((nrows a =? nrows b) && (ncols a =? ncols b))%nat.

(** ** Concrete images *)

Definition constant_image (r c : nat) (v : R) : ndarray :=
  mk_array r c (fun _ _ => v).

(** [np.ones((r, c))]. *)
Definition ones (r c : nat) : ndarray := constant_image r c 1.

(** The image [im = np.ones((r, c)); im[pi, pj] = v]. *)
Definition one_pixel (r c pi pj : nat) (v : R) : ndarray :=
  mk_array r c (fun i j => if ((i =? pi) && (j =? pj))%nat then v else 1).

(** With two edges, [0] and the largest distance, the bin index of a pixel
    is 2 at the corner (0, 0) and 1 elsewhere. *)
Definition two_edge_index (p : nat * nat) : nat :=
  if ((fst p =? 0) && (snd p =? 0))%nat then 2%nat else 1%nat.

(** An image smaller than the kernel on one axis and larger on the other
    (no axis of length one): neither array contains the other. *)
Definition straddles (img : ndarray) : Prop :=
  (2 <= nrows img < 5 /\ 5 < ncols img)%nat \/
  (2 <= ncols img < 5 /\ 5 < nrows img)%nat.

(** ** The cells around quick_contrast

    The notebooks prepare the detector images before the reduction:
    [centered = slope - np.nanmean(slope)] and, for the reference,
    [centered[np.isnan(centered)] = np.nanmax(centered)] (NIRCam notebook) or
    [clean = slope.copy(); clean[np.isnan(slope)] = np.nanmax(slope)] (MIRI
    notebook).  A detector image holds finite values and nans (saturated
    pixels); a pixel is [Some x] or [None] for nan.  Infinite pixels are not
    part of this model. *)

Record nanarray : Type := mk_nanarray {
  na_rows : nat;
  na_cols : nat;
  na_at : nat -> nat -> option R
}.

Definition na_ravel (a : nanarray) : list (option R) :=
  map (fun p => na_at a (fst p) (snd p)) (grid (na_rows a) (na_cols a)).

(** The elements that are not nan, in row-major order. *)
Definition finite_values (l : list (option R)) : list R :=
  flat_map (fun o => match o with Some x => [x] | None => [] end) l.

(** [np.nanmean]: the mean of the elements that are not nan; nan (with a
    warning) when there is none. *)
Definition np_nanmean (a : nanarray) : option R :=
  match finite_values (na_ravel a) with
  | [] => None
  | l => Some (np_mean l)
  end.

(** [np.nanmax]: ValueError on a zero-size array; nan (with a warning) when
    every element is nan; otherwise the maximum of the others. *)
Definition np_nanmax (a : nanarray) : result (option R) :=
  match na_ravel a with
  | [] => Raise ValueError
  | _ :: _ =>
      match finite_values (na_ravel a) with
      | [] => Ok None
      | x :: l => Ok (Some (fold_left Rmax l x))
      end
  end.

(** [a - m] for a scalar [m]: nan where the pixel or the scalar is nan. *)
Definition sub_scalar (a : nanarray) (m : option R) : nanarray :=
  mk_nanarray (na_rows a) (na_cols a)
    (fun i j => match na_at a i j, m with
                | Some x, Some y => Some (x - y)
                | _, _ => None
                end).

(** The array after [a[np.isnan(a)] = v]. *)
Definition nan_fill (a : nanarray) (v : option R) : nanarray :=
  mk_nanarray (na_rows a) (na_cols a)
    (fun i j => match na_at a i j with
                | Some x => Some x
                | None => v
                end).

(** [centered_target = target_slope - np.nanmean(target_slope)]. *)
Definition mean_subtract (slope : nanarray) : nanarray :=
  sub_scalar slope (np_nanmean slope).

(** NIRCam notebook:
    [centered_reference = reference_slope - np.nanmean(reference_slope)]
    [centered_reference[np.isnan(centered_reference)] = np.nanmax(centered_reference)]. *)
Definition centered_reference (reference_slope : nanarray) : result nanarray :=
  let centered := mean_subtract reference_slope in
  v <- np_nanmax centered ;;
  Ok (nan_fill centered v).

(** MIRI notebook:
    [clean_reference = reference_slope.copy()]
    [clean_reference[np.isnan(reference_slope)] = np.nanmax(reference_slope)]. *)
Definition clean_reference (reference_slope : nanarray) : result nanarray :=
  v <- np_nanmax reference_slope ;;
  Ok (nan_fill reference_slope v).






(** A 2 x 2 detector image with one saturated pixel:
    [[3, nan], [5, 4]]. *)
Definition saturated_sample : nanarray :=
  mk_nanarray 2 2
    (fun i j => match i, j with
                | 0%nat, 0%nat => Some 3
                | 0%nat, _ => None
                | _, 0%nat => Some 5
                | _, _ => Some 4
                end).

(** A detector image of which every pixel is saturated. *)
Definition all_nan (r c : nat) : nanarray :=
  mk_nanarray r c (fun _ _ => None).



(** * Properties of the library models *)

Section Grid.

Lemma in_grid (r c i j : nat) :
  In (i, j) (grid r c) <-> (i < r)%nat /\ (j < c)%nat.
Proof.
  unfold grid. rewrite in_flat_map. split.
  - intros (i' & Hi & Hj). apply in_seq in Hi.
    apply in_map_iff in Hj. destruct Hj as (j' & Heq & Hj').
    apply in_seq in Hj'. inversion Heq; subst. lia.
  - intros [Hi Hj]. exists i. split.
    + apply in_seq. lia.
    + apply in_map_iff. exists j. split; [reflexivity | apply in_seq; lia].
Qed.

Lemma grid_length (r c : nat) : length (grid r c) = (r * c)%nat.
Proof.
  unfold grid. generalize 0%nat at 2. induction r as [| r IH]; intros s.
  - reflexivity.
  - cbn [seq flat_map]. rewrite length_app, length_map, length_seq, IH. lia.
Qed.

Lemma grid_nonempty (r c : nat) :
  (1 <= r)%nat -> (1 <= c)%nat -> exists l, grid r c = (0%nat, 0%nat) :: l.
Proof.
  intros Hr Hc. destruct r as [| r]; [lia |]. destruct c as [| c]; [lia |].
  unfold grid. cbn [seq flat_map map app]. eauto.
Qed.

End Grid.

Section NpMax.

Lemma fold_left_Rmax_ge (l : list R) (x : R) : x <= fold_left Rmax l x.
Proof.
  revert x. induction l as [| y l IH]; intros x; cbn [fold_left].
  - lra.
  - eapply Rle_trans; [apply Rmax_l | apply IH].
Qed.

Lemma fold_left_Rmax_upper (l : list R) (x y : R) :
  In y l -> y <= fold_left Rmax l x.
Proof.
  revert x. induction l as [| z l IH]; intros x Hin; cbn [fold_left].
  - destruct Hin.
  - destruct Hin as [-> | Hin].
    + eapply Rle_trans; [apply Rmax_r | apply fold_left_Rmax_ge].
    + now apply IH.
Qed.

Lemma fold_left_Rmax_in (l : list R) (x : R) :
  fold_left Rmax l x = x \/ In (fold_left Rmax l x) l.
Proof.
  revert x. induction l as [| z l IH]; intros x; cbn [fold_left].
  - now left.
  - destruct (IH (Rmax x z)) as [H | H].
    + rewrite H. unfold Rmax. destruct (Rle_dec x z); [right; now left | now left].
    + right. now right.
Qed.

Lemma np_max_spec (l : list R) (m : R) :
  np_max l = Ok m -> In m l /\ forall x, In x l -> x <= m.
Proof.
  destruct l as [| x l]; cbn [np_max]; [discriminate |].
  intros H. inversion H as [Hm]. split.
  - destruct (fold_left_Rmax_in l x) as [E | E]; [left; now rewrite E | now right].
  - intros y [<- | Hy]; [apply fold_left_Rmax_ge | now apply fold_left_Rmax_upper].
Qed.

Lemma np_max_ok (l : list R) : l <> [] -> exists m, np_max l = Ok m.
Proof. destruct l; [congruence | cbn; eauto]. Qed.

Lemma np_max_unique (l : list R) (m : R) :
  In m l -> (forall x, In x l -> x <= m) -> np_max l = Ok m.
Proof.
  intros Hin Hub. destruct (np_max_ok l) as [m' Hm'].
  - intros ->. destruct Hin.
  - rewrite Hm'. f_equal. apply np_max_spec in Hm'. destruct Hm' as [Hin' Hub'].
    apply Rle_antisym; auto.
Qed.

End NpMax.

Section Radial.

Lemma sq_dist_le (n i : nat) :
  (i < n)%nat -> (INR i - INR n / 2) ^ 2 <= (INR 0 - INR n / 2) ^ 2.
Proof.
  intros H. apply lt_INR in H. pose proof (pos_INR i) as Hi.
  cbn [INR]. nra.
Qed.

Lemma sq_dist_lt (n i : nat) :
  (0 < i < n)%nat -> (INR i - INR n / 2) ^ 2 < (INR 0 - INR n / 2) ^ 2.
Proof.
  intros [H0 H]. apply lt_INR in H. apply lt_INR in H0.
  cbn [INR] in *. nra.
Qed.

Lemma radial_le_corner (r c i j : nat) :
  (i < r)%nat -> (j < c)%nat -> radial r c i j <= radial r c 0 0.
Proof.
  intros Hi Hj. unfold radial. apply sqrt_le_1_alt.
  pose proof (sq_dist_le r i Hi). pose proof (sq_dist_le c j Hj). lra.
Qed.

Lemma radial_corner_pos (r c : nat) :
  (1 <= r)%nat -> 0 < radial r c 0 0.
Proof.
  intros Hr. unfold radial. apply sqrt_lt_R0.
  apply le_INR in Hr. cbn [INR] in *.
  assert (0 <= (0 - INR c / 2) ^ 2) by (apply pow2_ge_0). nra.
Qed.

Lemma radial_lt_corner (r c i j : nat) :
  (i < r)%nat -> (j < c)%nat -> (i, j) <> (0%nat, 0%nat) ->
  radial r c i j < radial r c 0 0.
Proof.
  intros Hi Hj Hne. unfold radial. apply sqrt_lt_1_alt. split.
  - assert (0 <= (INR i - INR r / 2) ^ 2) by apply pow2_ge_0.
    assert (0 <= (INR j - INR c / 2) ^ 2) by apply pow2_ge_0. lra.
  - pose proof (sq_dist_le r i Hi). pose proof (sq_dist_le c j Hj).
    destruct i as [| i].
    + destruct j as [| j]; [congruence |].
      assert (0 < S j < c)%nat as Hlt by lia.
      pose proof (sq_dist_lt c (S j) Hlt). lra.
    + assert (0 < S i < r)%nat as Hlt by lia.
      pose proof (sq_dist_lt r (S i) Hlt). lra.
Qed.

Lemma radial_nonneg (r c i j : nat) : 0 <= radial r c i j.
Proof. apply sqrt_pos. Qed.

(** The largest distance of the grid is reached at pixel (0, 0), the one
    farthest from [shape / 2]. *)
Lemma max_radial_corner (r c : nat) :
  (1 <= r)%nat -> (1 <= c)%nat ->
  np_max (radial_values r c) = Ok (radial r c 0 0).
Proof.
  intros Hr Hc. apply np_max_unique.
  - unfold radial_values. apply in_map_iff. exists (0%nat, 0%nat). split; [reflexivity |].
    apply in_grid. lia.
  - intros x Hx. unfold radial_values in Hx. apply in_map_iff in Hx.
    destruct Hx as ([i j] & <- & Hin). apply in_grid in Hin.
    cbn [fst snd]. now apply radial_le_corner.
Qed.

End Radial.

Lemma nth_map_seq {A : Type} (f : nat -> A) (n k : nat) (d : A) :
  (k < n)%nat -> nth k (map f (seq 0 n)) d = f k.
Proof.
  intros Hk.
  rewrite nth_indep with (d' := f 0%nat) by (rewrite length_map, length_seq; lia).
  rewrite map_nth, seq_nth by assumption. reflexivity.
Qed.

Section Linspace.

Variables (stop : R) (n : nat).

(** The edge sequence [np.linspace(0, stop, n)]. *)
Local Abbreviation edges := (linspace_samples 0 stop n).

Lemma edges_length : length edges = n.
Proof. unfold linspace_samples. now rewrite length_map, length_seq. Qed.

Lemma edges_nth (k : nat) :
  (2 <= n)%nat -> (k < n)%nat ->
  nth k edges 0 = INR k * (stop / INR (n - 1)).
Proof.
  intros Hn Hk. unfold linspace_samples.
  rewrite nth_map_seq by assumption.
  assert (INR (n - 1) <> 0) as Hne by (apply not_0_INR; lia).
  destruct (1 <? n)%nat eqn:E1; [| apply Nat.ltb_ge in E1; lia].
  destruct (k =? n - 1)%nat eqn:E2; cbn [andb].
  - apply Nat.eqb_eq in E2. subst k. field. exact Hne.
  - unfold Rdiv. ring.
Qed.

Lemma edges_first : (1 <= n)%nat -> nth 0 edges 0 = 0.
Proof.
  intros Hn. unfold linspace_samples. rewrite nth_map_seq by lia.
  destruct ((1 <? n) && (0 =? n - 1))%nat eqn:E.
  - apply andb_prop in E. destruct E as [E1 E2].
    apply Nat.ltb_lt in E1. apply Nat.eqb_eq in E2. lia.
  - cbn [INR]. lra.
Qed.

Lemma edges_last : (2 <= n)%nat -> nth (n - 1) edges 0 = stop.
Proof.
  intros Hn. rewrite edges_nth by lia. field. apply not_0_INR. lia.
Qed.

Lemma edges_increasing (j k : nat) :
  (2 <= n)%nat -> 0 < stop -> (j < k)%nat -> (k < n)%nat ->
  nth j edges 0 < nth k edges 0.
Proof.
  intros Hn Hs Hjk Hk. rewrite !edges_nth by lia.
  assert (0 < INR (n - 1)) by (apply lt_0_INR; lia).
  assert (0 < stop / INR (n - 1)) by (apply Rdiv_lt_0_compat; assumption).
  apply Rmult_lt_compat_r; [assumption | now apply lt_INR].
Qed.

End Linspace.

Lemma np_linspace_edges (stop : R) (num : Z) :
  (0 <= num)%Z ->
  np_linspace 0 stop num = Ok (linspace_samples 0 stop (Z.to_nat num)).
Proof.
  intros H. unfold np_linspace.
  destruct (num <? 0)%Z eqn:E; [apply Z.ltb_lt in E; lia | reflexivity].
Qed.

Section Digitize.

Lemma np_digitize_le_length (x : R) (bins : list R) :
  (np_digitize x bins <= length bins)%nat.
Proof.
  induction bins as [| b bins IH]; cbn [np_digitize length]; [lia |].
  destruct (Rlt_dec x b); lia.
Qed.

(** Below the index returned, every edge is at most [x] (whatever the
    bins). *)
Lemma np_digitize_below (x : R) (bins : list R) (i : nat) :
  (i < np_digitize x bins)%nat -> nth i bins 0 <= x.
Proof.
  revert i. induction bins as [| b bins IH]; intros i; cbn [np_digitize].
  - lia.
  - destruct (Rlt_dec x b) as [Hlt | Hge]; [lia |].
    destruct i as [| i]; cbn [nth]; intros H; [lra | apply IH; lia].
Qed.

(** The edge at the index returned, when there is one, is above [x]. *)
Lemma np_digitize_at (x : R) (bins : list R) :
  (np_digitize x bins < length bins)%nat ->
  x < nth (np_digitize x bins) bins 0.
Proof.
  induction bins as [| b bins IH]; cbn [np_digitize length]; [lia |].
  destruct (Rlt_dec x b) as [Hlt | Hge]; cbn [nth]; intros H; [exact Hlt |].
  apply IH. lia.
Qed.

(** On increasing bins the returned index is the only [k] with
    [bins[k-1] <= x < bins[k]] (each side dropped where the edge does not
    exist). *)
Lemma np_digitize_unique (x : R) (bins : list R) (k : nat) :
  (forall i j, (i < j)%nat -> (j < length bins)%nat ->
               nth i bins 0 < nth j bins 0) ->
  (k <= length bins)%nat ->
  ((1 <= k)%nat -> nth (k - 1) bins 0 <= x) ->
  ((k < length bins)%nat -> x < nth k bins 0) ->
  np_digitize x bins = k.
Proof.
  intros Hinc Hk Hlo Hhi.
  pose proof (np_digitize_le_length x bins) as Hle.
  destruct (Nat.lt_trichotomy (np_digitize x bins) k) as [Hlt | [Heq | Hgt]];
    [exfalso | exact Heq | exfalso].
  - pose proof (np_digitize_at x bins ltac:(lia)) as Hat.
    specialize (Hlo ltac:(lia)).
    destruct (Nat.eq_dec (np_digitize x bins) (k - 1)) as [E | E].
    + rewrite E in Hat. lra.
    + specialize (Hinc (np_digitize x bins) (k - 1)%nat ltac:(lia) ltac:(lia)). lra.
  - pose proof (np_digitize_below x bins k Hgt) as Hb.
    specialize (Hhi ltac:(lia)). lra.
Qed.

End Digitize.

Section Unique.

Lemma insert_unique_In (a x : nat) (l : list nat) :
  In x (insert_unique a l) <-> x = a \/ In x l.
Proof.
  induction l as [| b l IH]; cbn [insert_unique].
  - cbn. intuition.
  - destruct (a <? b)%nat eqn:E1.
    + cbn. intuition.
    + destruct (a =? b)%nat eqn:E2.
      * apply Nat.eqb_eq in E2. subst. cbn. intuition.
      * cbn [In]. rewrite IH. intuition.
Qed.

Lemma np_unique_In (x : nat) (l : list nat) :
  In x (np_unique l) <-> In x l.
Proof.
  induction l as [| a l IH]; cbn [np_unique fold_right]; [reflexivity |].
  fold (np_unique l). rewrite insert_unique_In, IH. cbn. intuition.
Qed.

Lemma insert_unique_sorted (a : nat) (l : list nat) :
  StronglySorted lt l -> StronglySorted lt (insert_unique a l).
Proof.
  induction l as [| b l IH]; intros Hs; cbn [insert_unique].
  - constructor; constructor.
  - inversion Hs as [| ? ? Hs' Hall]; subst.
    destruct (a <? b)%nat eqn:E1.
    + apply Nat.ltb_lt in E1. constructor; [exact Hs |].
      constructor; [exact E1 |].
      eapply Forall_impl; [| exact Hall]. cbn. intros; lia.
    + destruct (a =? b)%nat eqn:E2; [exact Hs |].
      apply Nat.ltb_ge in E1. apply Nat.eqb_neq in E2.
      constructor; [now apply IH |].
      apply Forall_forall. intros x Hx. apply insert_unique_In in Hx.
      destruct Hx as [-> | Hx]; [lia |].
      rewrite Forall_forall in Hall. now apply Hall.
Qed.

(** The values come out in strictly increasing order. *)
Lemma np_unique_sorted (l : list nat) : StronglySorted lt (np_unique l).
Proof.
  induction l as [| a l IH]; cbn [np_unique fold_right]; [constructor |].
  now apply insert_unique_sorted.
Qed.

Lemma np_unique_nonempty (l : list nat) : l <> [] -> np_unique l <> [].
Proof.
  destruct l as [| a l]; [congruence |]. intros _ H.
  assert (In a (np_unique (a :: l))) as Hin by (apply np_unique_In; now left).
  rewrite H in Hin. destruct Hin.
Qed.

Lemma sorted_last_max (l : list nat) (m : nat) :
  StronglySorted lt l -> In m l -> (forall x, In x l -> (x <= m)%nat) ->
  last l 0%nat = m.
Proof.
  induction l as [| a l IH]; intros Hs Hin Hub; [destruct Hin |].
  inversion Hs as [| ? ? Hs' Hall]; subst. rewrite Forall_forall in Hall.
  destruct l as [| b l].
  - cbn. destruct Hin as [-> | []]. reflexivity.
  - change (last (a :: b :: l) 0%nat) with (last (b :: l) 0%nat).
    apply IH; [exact Hs' | | intros x Hx; apply Hub; now right].
    destruct Hin as [<- | Hin]; [| exact Hin].
    exfalso. specialize (Hall b ltac:(now left)).
    specialize (Hub b ltac:(right; now left)). lia.
Qed.

End Unique.

Section MapM.

Context {A B : Type}.

Lemma mapM_ok (f : A -> result B) (g : A -> B) (l : list A) :
  (forall a, In a l -> f a = Ok (g a)) -> mapM f l = Ok (map g l).
Proof.
  induction l as [| a l IH]; intros H; cbn [mapM map]; [reflexivity |].
  rewrite (H a) by now left. cbn [bind].
  rewrite IH by (intros; apply H; now right). reflexivity.
Qed.

Lemma mapM_raise (f : A -> result B) (e : pyerror) (l : list A) :
  l <> [] -> (forall a, In a l -> f a = Raise e) -> mapM f l = Raise e.
Proof.
  destruct l as [| a l]; [congruence |]. intros _ H.
  cbn [mapM]. rewrite (H a) by now left. reflexivity.
Qed.

End MapM.

(** * The equations of quick_contrast *)

Section Equations.

Lemma ravel_length (a : ndarray) : length (ravel a) = (nrows a * ncols a)%nat.
Proof. unfold ravel. now rewrite length_map, grid_length. Qed.

Lemma np_max_ravel_ok (a : ndarray) (m : R) :
  np_max (ravel a) = Ok m -> (1 <= nrows a)%nat /\ (1 <= ncols a)%nat.
Proof.
  intros H. pose proof (ravel_length a) as HL.
  destruct (ravel a) as [| x l]; [discriminate |]. cbn [length] in HL. nia.
Qed.

Lemma np_max_ravel_total (a : ndarray) :
  (1 <= nrows a)%nat -> (1 <= ncols a)%nat -> exists m, np_max (ravel a) = Ok m.
Proof.
  intros Hr Hc. apply np_max_ok. intros E.
  pose proof (ravel_length a) as HL. rewrite E in HL. cbn [length] in HL. nia.
Qed.

Lemma annuli_values_nonempty (r c : nat) (bins : list R) :
  (1 <= r)%nat -> (1 <= c)%nat -> annuli_values r c bins <> [].
Proof.
  intros Hr Hc. unfold annuli_values.
  destruct (grid_nonempty r c Hr Hc) as [l ->]. discriminate.
Qed.

Lemma annulus_std_ok (O : ndarray) (r c : nat) (bins : list R) (a : nat) :
  nrows O = r -> ncols O = c ->
  annulus_std O r c bins a = Ok (np_std (annulus_select O r c bins a)).
Proof.
  intros Hr Hc. unfold annulus_std, mask_select.
  rewrite Hr, Hc, !Nat.eqb_refl. reflexivity.
Qed.

Lemma annulus_std_mismatch (O : ndarray) (r c : nat) (bins : list R) (a : nat) :
  (nrows O, ncols O) <> (r, c) -> annulus_std O r c bins a = Raise IndexError.
Proof.
  intros Hne. unfold annulus_std, mask_select.
  destruct (nrows O =? r)%nat eqn:E1; [| reflexivity].
  destruct (ncols O =? c)%nat eqn:E2; [| reflexivity].
  apply Nat.eqb_eq in E1. apply Nat.eqb_eq in E2. congruence.
Qed.

(** What the function returns once both convolutions went through with equal
    shapes. *)
Lemma quick_contrast_ok (occ unocc U O : ndarray) (n : Z) (norm : R) :
  fftconvolve unocc kernel = Ok U ->
  np_max (ravel U) = Ok norm ->
  fftconvolve occ kernel = Ok O ->
  shape O = shape U ->
  (0 <= n)%Z ->
  quick_contrast occ unocc n =
    Ok (grid_bins (nrows U) (ncols U) n,
        contrast_of O (nrows U) (ncols U) norm (grid_bins (nrows U) (ncols U) n)).
Proof.
  intros HU Hnorm HO Hshape Hn. unfold quick_contrast.
  rewrite HU. cbn [bind]. rewrite Hnorm. cbn [bind]. rewrite HO. cbn [bind].
  destruct (np_max_ravel_ok U norm Hnorm) as [Hr Hc].
  rewrite max_radial_corner by assumption. cbn [bind].
  rewrite np_linspace_edges by assumption. cbn [bind].
  fold (grid_bins (nrows U) (ncols U) n).
  unfold shape in Hshape. injection Hshape as HOr HOc.
  rewrite mapM_ok with
    (g := fun a => np_std (annulus_select O (nrows U) (ncols U)
                     (grid_bins (nrows U) (ncols U) n) a))
    by (intros; now apply annulus_std_ok).
  cbn [bind]. unfold contrast_of. now rewrite map_map.
Qed.

(** Convolved images of different shapes: the boolean index raises. *)
Lemma quick_contrast_mismatch (occ unocc U O : ndarray) (n : Z) (norm : R) :
  fftconvolve unocc kernel = Ok U ->
  np_max (ravel U) = Ok norm ->
  fftconvolve occ kernel = Ok O ->
  shape O <> shape U ->
  (0 <= n)%Z ->
  quick_contrast occ unocc n = Raise IndexError.
Proof.
  intros HU Hnorm HO Hshape Hn. unfold quick_contrast.
  rewrite HU. cbn [bind]. rewrite Hnorm. cbn [bind]. rewrite HO. cbn [bind].
  destruct (np_max_ravel_ok U norm Hnorm) as [Hr Hc].
  rewrite max_radial_corner by assumption. cbn [bind].
  rewrite np_linspace_edges by assumption. cbn [bind].
  rewrite mapM_raise with (e := IndexError).
  - reflexivity.
  - apply np_unique_nonempty. now apply annuli_values_nonempty.
  - intros a _. now apply annulus_std_mismatch.
Qed.

(** Every successful call went through the steps above. *)
Lemma quick_contrast_inv (occ unocc : ndarray) (n : Z)
    (rb : list R) (cv : list fvalue) :
  quick_contrast occ unocc n = Ok (rb, cv) ->
  exists U O norm,
    fftconvolve unocc kernel = Ok U /\
    np_max (ravel U) = Ok norm /\
    fftconvolve occ kernel = Ok O /\
    shape O = shape U /\
    (0 <= n)%Z /\
    rb = grid_bins (nrows U) (ncols U) n /\
    cv = contrast_of O (nrows U) (ncols U) norm rb.
Proof.
  intros H.
  destruct (fftconvolve unocc kernel) as [U | e] eqn:HU;
    [| unfold quick_contrast in H; rewrite HU in H; discriminate].
  destruct (np_max (ravel U)) as [norm | e] eqn:Hnorm;
    [| unfold quick_contrast in H; rewrite HU in H; cbn [bind] in H;
       rewrite Hnorm in H; discriminate].
  destruct (fftconvolve occ kernel) as [O | e] eqn:HO;
    [| unfold quick_contrast in H; rewrite HU in H; cbn [bind] in H;
       rewrite Hnorm in H; cbn [bind] in H; rewrite HO in H; discriminate].
  assert (0 <= n)%Z as Hn.
  { destruct (Z.lt_ge_cases n 0) as [Hneg | Hpos]; [exfalso | exact Hpos].
    unfold quick_contrast in H. rewrite HU in H. cbn [bind] in H.
    rewrite Hnorm in H. cbn [bind] in H. rewrite HO in H. cbn [bind] in H.
    destruct (np_max_ravel_ok U norm Hnorm) as [Hr Hc].
    rewrite max_radial_corner in H by assumption. cbn [bind] in H.
    unfold np_linspace in H. apply Z.ltb_lt in Hneg. rewrite Hneg in H.
    discriminate. }
  assert (shape O = shape U) as Hshape.
  { destruct (Nat.eq_dec (nrows O) (nrows U)) as [E1 | E1];
      [destruct (Nat.eq_dec (ncols O) (ncols U)) as [E2 | E2] |].
    - unfold shape. congruence.
    - rewrite (quick_contrast_mismatch occ unocc U O n norm) in H;
        try assumption; [discriminate | unfold shape; congruence].
    - rewrite (quick_contrast_mismatch occ unocc U O n norm) in H;
        try assumption; [discriminate | unfold shape; congruence]. }
  rewrite (quick_contrast_ok occ unocc U O n norm) in H by assumption.
  inversion H; subst. exists U, O, norm. repeat split; assumption.
Qed.

End Equations.

(** * Convolution with the aperture *)

Section Convolution.

(** An image at least as large as the 5 x 5 kernel is convolved as it is;
    the result loses four rows and four columns. *)
Lemma fftconvolve_kernel (img : ndarray) :
  (5 <= nrows img)%nat -> (5 <= ncols img)%nat ->
  fftconvolve img kernel = Ok (conv_valid img kernel).
Proof.
  intros Hr Hc. unfold fftconvolve, size, fits. cbn [nrows ncols kernel].
  destruct (nrows img * ncols img =? 0)%nat eqn:E.
  - apply Nat.eqb_eq in E. nia.
  - cbn [orb Nat.mul Nat.eqb Nat.add].
    destruct (Nat.leb_spec 5 (nrows img)); [| lia].
    destruct (Nat.leb_spec 5 (ncols img)); [| lia]. reflexivity.
Qed.

End Convolution.

(** * Radial binning *)

Section Binning.

Variables (r c : nat) (n : Z).
Hypothesis Hr : (1 <= r)%nat.
Hypothesis Hc : (1 <= c)%nat.
Hypothesis Hn : (2 <= n)%Z.

Local Abbreviation N := (Z.to_nat n).
Local Abbreviation rb := (grid_bins r c n).

Lemma grid_bins_length : length rb = N.
Proof. unfold grid_bins. apply edges_length. Qed.

Lemma grid_bins_increasing (i j : nat) :
  (i < j)%nat -> (j < length rb)%nat -> nth i rb 0 < nth j rb 0.
Proof.
  intros Hij Hj. rewrite grid_bins_length in Hj. unfold grid_bins.
  apply edges_increasing; try assumption; [lia | now apply radial_corner_pos].
Qed.

Lemma grid_bins_first : nth 0 rb 0 = 0.
Proof. unfold grid_bins. apply edges_first. lia. Qed.

Lemma grid_bins_last : nth (N - 1) rb 0 = radial r c 0 0.
Proof. unfold grid_bins. apply edges_last. lia. Qed.

(** Standard digitization on the edges: index [k] exactly between edge
    [k-1] and edge [k]. *)
Lemma annuli_inds_iff (i j k : nat) :
  (1 <= k < N)%nat ->
  annuli_inds r c rb i j = k <->
  nth (k - 1) rb 0 <= radial r c i j < nth k rb 0.
Proof.
  intros Hk. unfold annuli_inds. split.
  - intros E. split.
    + apply np_digitize_below. lia.
    + pose proof (np_digitize_at (radial r c i j) rb) as Hat.
      rewrite E, grid_bins_length in Hat. apply Hat. lia.
  - intros [Hlo Hhi]. apply np_digitize_unique.
    + exact grid_bins_increasing.
    + rewrite grid_bins_length. lia.
    + intros _. exact Hlo.
    + intros _. exact Hhi.
Qed.

(** From the last edge on, the index is the number of edges. *)
Lemma annuli_inds_overflow (i j : nat) :
  annuli_inds r c rb i j = N <-> nth (N - 1) rb 0 <= radial r c i j.
Proof.
  unfold annuli_inds. split.
  - intros E. apply np_digitize_below. lia.
  - intros Hlo. apply np_digitize_unique.
    + exact grid_bins_increasing.
    + rewrite grid_bins_length. lia.
    + intros _. exact Hlo.
    + rewrite grid_bins_length. lia.
Qed.

Lemma annuli_inds_range (i j : nat) :
  (1 <= annuli_inds r c rb i j <= N)%nat.
Proof.
  split.
  - unfold annuli_inds.
    destruct (np_digitize (radial r c i j) rb) as [| k] eqn:E; [exfalso | lia].
    pose proof (np_digitize_at (radial r c i j) rb) as Hat.
    rewrite E, grid_bins_length, grid_bins_first in Hat.
    pose proof (radial_nonneg r c i j). specialize (Hat ltac:(lia)). lra.
  - unfold annuli_inds. rewrite <- grid_bins_length. apply np_digitize_le_length.
Qed.

(** The only pixel at the last edge is the corner (0, 0). *)
Lemma annuli_inds_corner (i j : nat) :
  (i < r)%nat -> (j < c)%nat ->
  annuli_inds r c rb i j = N <-> (i, j) = (0%nat, 0%nat).
Proof.
  intros Hi Hj. rewrite annuli_inds_overflow, grid_bins_last. split.
  - intros Hge. destruct (Nat.eq_dec i 0) as [-> | Hi0].
    + destruct (Nat.eq_dec j 0) as [-> | Hj0]; [reflexivity |].
      pose proof (radial_lt_corner r c 0 j Hi Hj ltac:(congruence)). lra.
    + pose proof (radial_lt_corner r c i j Hi Hj ltac:(congruence)). lra.
  - intros E. inversion E. lra.
Qed.

Lemma annuli_values_In (a : nat) :
  In a (annuli_values r c rb) <->
  exists i j, (i < r)%nat /\ (j < c)%nat /\ annuli_inds r c rb i j = a.
Proof.
  unfold annuli_values. rewrite in_map_iff. split.
  - intros ([i j] & E & Hin). apply in_grid in Hin. exists i, j. tauto.
  - intros (i & j & Hi & Hj & E). exists (i, j). split; [exact E |].
    apply in_grid. tauto.
Qed.

(** The overflow index is occupied, and it is the largest one: its annulus
    is the last entry of the contrast sequence. *)
Lemma unique_last_overflow :
  last (np_unique (annuli_values r c rb)) 0%nat = N.
Proof.
  apply sorted_last_max.
  - apply np_unique_sorted.
  - apply np_unique_In, annuli_values_In. exists 0%nat, 0%nat.
    repeat split; try lia. apply annuli_inds_corner; [lia | lia | reflexivity].
  - intros x Hx. apply np_unique_In, annuli_values_In in Hx.
    destruct Hx as (i & j & _ & _ & <-). apply annuli_inds_range.
Qed.

End Binning.

(** * Standard deviation and the division by norm *)

Section Std.

Lemma np_sum_const (l : list R) (v : R) :
  (forall x, In x l -> x = v) -> np_sum l = INR (length l) * v.
Proof.
  induction l as [| a l IH]; intros H.
  - cbn. lra.
  - cbn [np_sum fold_right]. fold (np_sum l).
    change (length (a :: l)) with (S (length l)). rewrite S_INR.
    rewrite IH by (intros; apply H; now right).
    rewrite (H a) by now left. ring.
Qed.

Lemma INR_length_pos {A : Type} (l : list A) : l <> [] -> 0 < INR (length l).
Proof.
  destruct l as [| a l]; [congruence |]. intros _.
  apply lt_0_INR. cbn. lia.
Qed.

Lemma np_mean_const (l : list R) (v : R) :
  l <> [] -> (forall x, In x l -> x = v) -> np_mean l = v.
Proof.
  intros Hne H. unfold np_mean. rewrite (np_sum_const l v H).
  pose proof (INR_length_pos l Hne). field. lra.
Qed.

(** A selection whose values are all the same, in particular a single
    pixel, has standard deviation 0. *)
Lemma np_std_const (l : list R) (v : R) :
  l <> [] -> (forall x, In x l -> x = v) -> np_std l = Fin 0.
Proof.
  intros Hne H. destruct l as [| a l]; [congruence |].
  cbn [np_std]. f_equal.
  rewrite (np_mean_const (a :: l) v Hne H).
  rewrite (np_mean_const _ 0).
  - apply sqrt_0.
  - discriminate.
  - intros x Hx. apply in_map_iff in Hx. destruct Hx as (y & <- & Hy).
    rewrite (H y Hy). ring.
Qed.

Lemma np_std_single (x : R) : np_std [x] = Fin 0.
Proof.
  apply np_std_const with (v := x); [discriminate |].
  intros y [<- | []]. reflexivity.
Qed.

Lemma np_std_fin (l : list R) :
  l <> [] -> exists s, np_std l = Fin s /\ 0 <= s.
Proof.
  destruct l as [| a l]; [congruence |]. intros _.
  eexists. split; [reflexivity | apply sqrt_pos].
Qed.




Lemma fdiv_zero (d : R) : d <> 0 -> fdiv (Fin 0) d = Fin 0.
Proof.
  intros Hd. cbn [fdiv]. destruct (Req_dec_T d 0); [contradiction |].
  f_equal. unfold Rdiv. ring.
Qed.


(** Dividing a standard deviation by zero leaves the finite numbers. *)
Lemma fdiv_by_zero (s : R) : 0 <= s -> fdiv (Fin s) 0 = NaN \/ fdiv (Fin s) 0 = PInf.
Proof.
  intros Hs. cbn [fdiv]. destruct (Req_dec_T 0 0) as [_ | Hne]; [| exfalso; lra].
  destruct (Req_dec_T s 0); [now left |].
  destruct (Rlt_dec 0 s); [now right | exfalso; lra].
Qed.

End Std.

(** * Scaling both images *)

Section Scaling.














End Scaling.

Section NormalForm.

Lemma shape_eqb_spec (a b : ndarray) :
  shape_eqb a b = true <-> shape a = shape b.
Proof.
  unfold shape_eqb, shape. rewrite andb_true_iff, !Nat.eqb_eq. split.
  - intros [-> ->]. reflexivity.
  - intros E. now injection E.
Qed.

(** The whole function, with its failures in the order they occur. *)
Lemma quick_contrast_nf (occ unocc : ndarray) (n : Z) :
  quick_contrast occ unocc n =
  (U <- fftconvolve unocc kernel ;;
   norm <- np_max (ravel U) ;;
   O <- fftconvolve occ kernel ;;
   if (n <? 0)%Z then Raise ValueError
   else if shape_eqb O U then
     Ok (grid_bins (nrows U) (ncols U) n,
         contrast_of O (nrows U) (ncols U) norm (grid_bins (nrows U) (ncols U) n))
   else Raise IndexError).
Proof.
  destruct (fftconvolve unocc kernel) as [U | e] eqn:HU; cbn [bind];
    [| unfold quick_contrast; now rewrite HU].
  destruct (np_max (ravel U)) as [norm | e] eqn:Hnorm; cbn [bind];
    [| unfold quick_contrast; rewrite HU; cbn [bind]; now rewrite Hnorm].
  destruct (fftconvolve occ kernel) as [O | e] eqn:HO; cbn [bind];
    [| unfold quick_contrast; rewrite HU; cbn [bind]; rewrite Hnorm; cbn [bind];
       now rewrite HO].
  destruct (n <? 0)%Z eqn:En.
  - unfold quick_contrast. rewrite HU. cbn [bind]. rewrite Hnorm. cbn [bind].
    rewrite HO. cbn [bind].
    destruct (np_max_ravel_ok U norm Hnorm) as [Hr Hc].
    rewrite max_radial_corner by assumption. cbn [bind].
    unfold np_linspace. now rewrite En.
  - apply Z.ltb_ge in En. destruct (shape_eqb O U) eqn:Es.
    + apply shape_eqb_spec in Es. now apply quick_contrast_ok.
    + apply (quick_contrast_mismatch occ unocc U O n norm); try assumption.
      intros E. apply shape_eqb_spec in E. congruence.
Qed.


End NormalForm.

(** * n_annuli = 2 and the small grids of the examples *)

Section TwoEdges.

Variables (r c : nat).
Hypothesis Hr : (1 <= r)%nat.
Hypothesis Hc : (1 <= c)%nat.

Lemma annuli_inds_two (i j : nat) :
  (i < r)%nat -> (j < c)%nat ->
  annuli_inds r c (grid_bins r c 2) i j = two_edge_index (i, j).
Proof.
  intros Hi Hj. unfold two_edge_index. cbn [fst snd].
  pose proof (annuli_inds_range r c 2 Hr Hc ltac:(lia) i j) as Hrange.
  pose proof (annuli_inds_corner r c 2 Hr Hc ltac:(lia) i j Hi Hj) as Hcorner.
  change (Z.to_nat 2) with 2%nat in *.
  destruct i as [| i], j as [| j]; cbn [Nat.eqb andb].
  - now apply Hcorner.
  - destruct Hcorner as [Hcorner _].
    destruct (Nat.eq_dec (annuli_inds r c (grid_bins r c 2) 0 (S j)) 2) as [E | E];
      [apply Hcorner in E; discriminate | lia].
  - destruct Hcorner as [Hcorner _].
    destruct (Nat.eq_dec (annuli_inds r c (grid_bins r c 2) (S i) 0) 2) as [E | E];
      [apply Hcorner in E; discriminate | lia].
  - destruct Hcorner as [Hcorner _].
    destruct (Nat.eq_dec (annuli_inds r c (grid_bins r c 2) (S i) (S j)) 2) as [E | E];
      [apply Hcorner in E; discriminate | lia].
Qed.

Lemma annuli_values_two :
  annuli_values r c (grid_bins r c 2) = map two_edge_index (grid r c).
Proof.
  unfold annuli_values. apply map_ext_in. intros [i j] Hin.
  apply in_grid in Hin. cbn [fst snd]. apply annuli_inds_two; tauto.
Qed.

Lemma annulus_pixels_two (a : nat) :
  annulus_pixels r c (grid_bins r c 2) a =
  filter (fun p => (two_edge_index p =? a)%nat) (grid r c).
Proof.
  unfold annulus_pixels. apply filter_ext_in. intros [i j] Hin.
  apply in_grid in Hin. cbn [fst snd]. rewrite annuli_inds_two by tauto.
  reflexivity.
Qed.

End TwoEdges.

Section ConstantImages.

Lemma np_max_const (l : list R) (v : R) :
  l <> [] -> (forall x, In x l -> x = v) -> np_max l = Ok v.
Proof.
  intros Hne H. apply np_max_unique.
  - destruct l as [| a l]; [congruence |]. left. apply H. now left.
  - intros x Hx. rewrite (H x Hx). lra.
Qed.

Lemma ravel_In (a : ndarray) (x : R) :
  In x (ravel a) <->
  exists i j, (i < nrows a)%nat /\ (j < ncols a)%nat /\ at_ a i j = x.
Proof.
  unfold ravel. rewrite in_map_iff. split.
  - intros ([i j] & E & Hin). apply in_grid in Hin. exists i, j. tauto.
  - intros (i & j & Hi & Hj & E). exists (i, j). split; [exact E |].
    apply in_grid. tauto.
Qed.

Lemma ravel_nonempty (a : ndarray) :
  (1 <= nrows a)%nat -> (1 <= ncols a)%nat -> ravel a <> [].
Proof.
  intros Hr Hc E. pose proof (ravel_length a) as HL. rewrite E in HL.
  cbn [length] in HL. nia.
Qed.

(** A convolved image that has the same value everywhere has that value as
    its maximum. *)
Lemma np_max_flat (a : ndarray) (v : R) :
  (1 <= nrows a)%nat -> (1 <= ncols a)%nat ->
  (forall i j, (i < nrows a)%nat -> (j < ncols a)%nat -> at_ a i j = v) ->
  np_max (ravel a) = Ok v.
Proof.
  intros Hr Hc H. apply np_max_const; [now apply ravel_nonempty |].
  intros x Hx. apply ravel_In in Hx. destruct Hx as (i & j & Hi & Hj & <-).
  now apply H.
Qed.

Lemma annulus_pixels_occupied (r c : nat) (bins : list R) (a : nat) :
  In a (np_unique (annuli_values r c bins)) <-> annulus_pixels r c bins a <> [].
Proof.
  rewrite np_unique_In. unfold annuli_values, annulus_pixels.
  rewrite in_map_iff. split.
  - intros (p & E & Hin) Hnil.
    assert (In p (filter (fun p => (annuli_inds r c bins (fst p) (snd p) =? a)%nat)
                         (grid r c))) as Hp
      by (apply filter_In; split; [exact Hin | now apply Nat.eqb_eq]).
    rewrite Hnil in Hp. destruct Hp.
  - intros Hne.
    destruct (filter (fun p => (annuli_inds r c bins (fst p) (snd p) =? a)%nat)
                     (grid r c)) as [| p l] eqn:E; [congruence |].
    assert (In p (p :: l)) as Hp by now left.
    rewrite <- E in Hp. apply filter_In in Hp. destruct Hp as [Hin Heq].
    exists p. split; [now apply Nat.eqb_eq | exact Hin].
Qed.

(** A convolved occulted image without variation gives contrast 0 in every
    annulus, whatever the nonzero [norm]. *)
Lemma contrast_of_flat (o : ndarray) (r c : nat) (norm v : R) (bins : list R) :
  nrows o = r -> ncols o = c -> norm <> 0 ->
  (forall i j, (i < r)%nat -> (j < c)%nat -> at_ o i j = v) ->
  contrast_of o r c norm bins =
  map (fun _ => Fin 0) (np_unique (annuli_values r c bins)).
Proof.
  intros Er Ec Hnorm H. unfold contrast_of. apply map_ext_in. intros a Ha.
  apply annulus_pixels_occupied in Ha.
  rewrite (np_std_const _ v).
  - now apply fdiv_zero.
  - unfold annulus_select. intros E. apply map_eq_nil in E. contradiction.
  - intros x Hx. unfold annulus_select in Hx. apply in_map_iff in Hx.
    destruct Hx as ([i j] & <- & Hin). unfold annulus_pixels in Hin.
    apply filter_In in Hin. destruct Hin as [Hin _]. apply in_grid in Hin.
    cbn [fst snd]. apply H; tauto.
Qed.

End ConstantImages.

(** * The 7 x 7 scenario *)

Ltac conv_eval :=
  cbn [at_ conv_valid nrows ncols kernel kernel_rows one_pixel constant_image
       ones sum_n np_sum seq map fold_right Nat.add Nat.sub nth Nat.eqb andb].

Section SevenBySeven.

(** The aperture has thirteen unit weights: a constant image of value [v]
    convolves to [13 * v]. *)
Lemma conv_constant (r c : nat) (v : R) (i j : nat) :
  at_ (conv_valid (constant_image r c v) kernel) i j = 13 * v.
Proof. conv_eval. lra. Qed.

Lemma conv_ones (r c i j : nat) :
  at_ (conv_valid (ones r c) kernel) i j = 13.
Proof. unfold ones. rewrite conv_constant. lra. Qed.

(** The centre pixel of the 7 x 7 image lies under a unit weight of the
    aperture at each of the nine valid positions. *)
Lemma conv_center10 (i j : nat) :
  (i < 3)%nat -> (j < 3)%nat ->
  at_ (conv_valid (one_pixel 7 7 3 3 10) kernel) i j = 22.
Proof.
  intros Hi Hj.
  destruct i as [| [| [| i]]]; [| | | lia];
    (destruct j as [| [| [| j]]]; [| | | lia]); conv_eval; lra.
Qed.

Lemma norm_ones7 : np_max (ravel (conv_valid (ones 7 7) kernel)) = Ok 13.
Proof.
  apply np_max_flat; cbn [nrows ncols conv_valid ones constant_image kernel];
    try lia.
  intros. apply conv_ones.
Qed.

Lemma unique_3x3 :
  np_unique (annuli_values 3 3 (grid_bins 3 3 2)) = [1%nat; 2%nat].
Proof. rewrite annuli_values_two by lia. reflexivity. Qed.

Lemma quick_contrast_center10 :
  quick_contrast (one_pixel 7 7 3 3 10) (ones 7 7) 2 =
  Ok (grid_bins 3 3 2, [Fin 0; Fin 0]).
Proof.
  rewrite (quick_contrast_ok _ _ (conv_valid (ones 7 7) kernel)
             (conv_valid (one_pixel 7 7 3 3 10) kernel) 2 13).
  - change (nrows (conv_valid (ones 7 7) kernel)) with 3%nat.
    change (ncols (conv_valid (ones 7 7) kernel)) with 3%nat.
    rewrite (contrast_of_flat _ 3 3 13 22); try reflexivity; try lra.
    + now rewrite unique_3x3.
    + intros. now apply conv_center10.
  - apply fftconvolve_kernel; cbn; lia.
  - exact norm_ones7.
  - apply fftconvolve_kernel; cbn; lia.
  - reflexivity.
  - lia.
Qed.

Lemma quick_contrast_ones7 :
  quick_contrast (ones 7 7) (ones 7 7) 2 =
  Ok (grid_bins 3 3 2, [Fin 0; Fin 0]).
Proof.
  rewrite (quick_contrast_ok _ _ (conv_valid (ones 7 7) kernel)
             (conv_valid (ones 7 7) kernel) 2 13).
  - change (nrows (conv_valid (ones 7 7) kernel)) with 3%nat.
    change (ncols (conv_valid (ones 7 7) kernel)) with 3%nat.
    rewrite (contrast_of_flat _ 3 3 13 13); try reflexivity; try lra.
    + now rewrite unique_3x3.
    + intros. apply conv_ones.
  - apply fftconvolve_kernel; cbn; lia.
  - exact norm_ones7.
  - apply fftconvolve_kernel; cbn; lia.
  - reflexivity.
  - lia.
Qed.

End SevenBySeven.

(** * Facts about the returned sequences *)

Section Sequences.

Lemma sorted_length_bound (l : list nat) (lo hi : nat) :
  StronglySorted lt l ->
  (forall x, In x l -> (lo <= x < hi)%nat) ->
  (length l <= hi - lo)%nat.
Proof.
  revert lo. induction l as [| a l IH]; intros lo Hs Hb; cbn [length]; [lia |].
  inversion Hs as [| ? ? Hs' Hall]; subst. rewrite Forall_forall in Hall.
  specialize (IH (S a) Hs').
  assert (forall x, In x l -> (S a <= x < hi)%nat) as Hb'.
  { intros x Hx. specialize (Hall x Hx). specialize (Hb x (or_intror Hx)). lia. }
  specialize (IH Hb'). specialize (Hb a (or_introl eq_refl)). lia.
Qed.

Lemma last_map {A B : Type} (f : A -> B) (l : list A) (d : A) (d' : B) :
  l <> [] -> last (map f l) d' = f (last l d).
Proof.
  induction l as [| a l IH]; [congruence |]. intros _.
  destruct l as [| b l]; [reflexivity |].
  change (last (map f (a :: b :: l)) d') with (last (map f (b :: l)) d').
  change (last (a :: b :: l) d) with (last (b :: l) d).
  apply IH. discriminate.
Qed.

Lemma contrast_of_length (o : ndarray) (r c : nat) (norm : R) (bins : list R) :
  length (contrast_of o r c norm bins) =
  length (np_unique (annuli_values r c bins)).
Proof. unfold contrast_of. apply length_map. Qed.

Lemma contrast_of_nth (o : ndarray) (r c : nat) (norm : R) (bins : list R)
    (k : nat) :
  (k < length (np_unique (annuli_values r c bins)))%nat ->
  nth k (contrast_of o r c norm bins) NaN =
  fdiv (np_std (annulus_select o r c bins
                  (nth k (np_unique (annuli_values r c bins)) 0%nat))) norm.
Proof.
  intros Hk. unfold contrast_of.
  rewrite nth_indep with (d' := (fun a => fdiv (np_std (annulus_select o r c bins a)) norm) 0%nat)
    by now rewrite length_map.
  apply (map_nth (fun a => fdiv (np_std (annulus_select o r c bins a)) norm)).
Qed.

(** The number of entries never exceeds [n_annuli]. *)
Lemma unique_length_bound (r c : nat) (n : Z) :
  (1 <= r)%nat -> (1 <= c)%nat -> (2 <= n)%Z ->
  (length (np_unique (annuli_values r c (grid_bins r c n))) <= Z.to_nat n)%nat.
Proof.
  intros Hr Hc Hn.
  pose proof (sorted_length_bound
                (np_unique (annuli_values r c (grid_bins r c n)))
                1 (S (Z.to_nat n)) (np_unique_sorted _)) as H.
  assert (forall x, In x (np_unique (annuli_values r c (grid_bins r c n))) ->
                    (1 <= x < S (Z.to_nat n))%nat) as Hb.
  { intros x Hx. apply np_unique_In, annuli_values_In in Hx.
    destruct Hx as (i & j & _ & _ & <-).
    pose proof (annuli_inds_range r c n Hr Hc Hn i j). lia. }
  specialize (H Hb). lia.
Qed.

Lemma annulus_select_nonempty (o : ndarray) (r c : nat) (bins : list R) (a : nat) :
  In a (np_unique (annuli_values r c bins)) -> annulus_select o r c bins a <> [].
Proof.
  intros Ha E. apply annulus_pixels_occupied in Ha.
  unfold annulus_select in E. apply map_eq_nil in E. contradiction.
Qed.

(** Entries for a positive [norm]: finite and not negative. *)
Lemma contrast_of_nonneg (o : ndarray) (r c : nat) (norm : R) (bins : list R) :
  0 < norm -> Forall fge0 (contrast_of o r c norm bins).
Proof.
  intros Hnorm. unfold contrast_of. apply Forall_forall. intros v Hv.
  apply in_map_iff in Hv. destruct Hv as (a & <- & Ha).
  destruct (np_std_fin _ (annulus_select_nonempty o r c bins a Ha)) as (s & -> & Hs).
  cbn [fdiv]. destruct (Req_dec_T norm 0) as [E | _]; [exfalso; lra |].
  cbn [fge0]. apply Rmult_le_pos; [exact Hs |].
  apply Rlt_le, Rinv_0_lt_compat, Hnorm.
Qed.

(** Entries for [norm = 0]: nan or inf. *)
Lemma contrast_of_zero_norm (o : ndarray) (r c : nat) (bins : list R) :
  Forall non_finite (contrast_of o r c 0 bins).
Proof.
  unfold contrast_of. apply Forall_forall. intros v Hv.
  apply in_map_iff in Hv. destruct Hv as (a & <- & Ha).
  destruct (np_std_fin _ (annulus_select_nonempty o r c bins a Ha)) as (s & -> & Hs).
  destruct (fdiv_by_zero s Hs) as [-> | ->]; exact I.
Qed.

(** The shape of the convolved image depends on the shape of the image
    only. *)
Lemma fftconvolve_shape (a b u v : ndarray) :
  shape a = shape b ->
  fftconvolve a kernel = Ok u -> fftconvolve b kernel = Ok v ->
  shape u = shape v.
Proof.
  intros Hs. unfold shape in Hs. injection Hs as Er Ec.
  unfold fftconvolve, size, fits. rewrite Er, Ec.
  destruct ((nrows b * ncols b =? 0) || (nrows kernel * ncols kernel =? 0))%nat.
  - intros Hu Hv. injection Hu as <-. injection Hv as <-. reflexivity.
  - destruct ((nrows kernel <=? nrows b) && (ncols kernel <=? ncols b))%nat.
    + intros Hu Hv. injection Hu as <-. injection Hv as <-.
      unfold shape, conv_valid. cbn [nrows ncols]. now rewrite Er, Ec.
    + destruct ((nrows b <=? nrows kernel) && (ncols b <=? ncols kernel))%nat;
        [| discriminate].
      intros Hu Hv. injection Hu as <-. injection Hv as <-.
      unfold shape, conv_valid. cbn [nrows ncols]. now rewrite Er, Ec.
Qed.

Lemma fftconvolve_straddles (img : ndarray) :
  straddles img -> fftconvolve img kernel = Raise ValueError.
Proof.
  intros H. unfold fftconvolve, size, fits. cbn [nrows ncols kernel].
  destruct (nrows img * ncols img =? 0)%nat eqn:E0;
    [apply Nat.eqb_eq in E0; unfold straddles in H; nia |].
  cbn [orb Nat.mul Nat.add Nat.eqb].
  destruct (Nat.leb_spec 5 (nrows img)), (Nat.leb_spec 5 (ncols img)),
           (Nat.leb_spec (nrows img) 5), (Nat.leb_spec (ncols img) 5);
    cbn [andb]; try reflexivity; unfold straddles in H; lia.
Qed.

Lemma fftconvolve_empty (img : ndarray) :
  size img = 0%nat -> fftconvolve img kernel = Ok empty_array.
Proof. intros H. unfold fftconvolve. now rewrite H. Qed.

End Sequences.

(** * Worked inputs *)

Section WorkedInputs.

Lemma contrast_of_flat_any (o : ndarray) (r c : nat) (norm v : R) (bins : list R) :
  nrows o = r -> ncols o = c ->
  (forall i j, (i < r)%nat -> (j < c)%nat -> at_ o i j = v) ->
  contrast_of o r c norm bins =
  map (fun _ => fdiv (Fin 0) norm) (np_unique (annuli_values r c bins)).
Proof.
  intros Er Ec H. unfold contrast_of. apply map_ext_in. intros a Ha.
  rewrite (np_std_const _ v); [reflexivity | now apply annulus_select_nonempty |].
  intros x Hx. unfold annulus_select in Hx. apply in_map_iff in Hx.
  destruct Hx as ([i j] & <- & Hin). unfold annulus_pixels in Hin.
  apply filter_In in Hin. destruct Hin as [Hin _]. apply in_grid in Hin.
  cbn [fst snd]. apply H; tauto.
Qed.

Lemma fdiv_zero_zero : fdiv (Fin 0) 0 = NaN.
Proof.
  cbn [fdiv]. destruct (Req_dec_T 0 0) as [_ | H]; [| exfalso; lra].
  reflexivity.
Qed.

(** An all-zero unocculted image: [norm = 0], and the call returns. *)
Lemma norm_zeros7 :
  np_max (ravel (conv_valid (constant_image 7 7 0) kernel)) = Ok 0.
Proof.
  apply np_max_flat; cbn [nrows ncols conv_valid constant_image kernel];
    try lia.
  intros. rewrite conv_constant. lra.
Qed.

Lemma quick_contrast_zeros7 :
  quick_contrast (ones 7 7) (constant_image 7 7 0) 2 =
  Ok (grid_bins 3 3 2, [NaN; NaN]).
Proof.
  rewrite (quick_contrast_ok _ _ (conv_valid (constant_image 7 7 0) kernel)
             (conv_valid (ones 7 7) kernel) 2 0).
  - change (nrows (conv_valid (constant_image 7 7 0) kernel)) with 3%nat.
    change (ncols (conv_valid (constant_image 7 7 0) kernel)) with 3%nat.
    rewrite (contrast_of_flat_any _ 3 3 0 13); try reflexivity.
    + rewrite unique_3x3. cbn [map]. now rewrite fdiv_zero_zero.
    + intros. apply conv_ones.
  - apply fftconvolve_kernel; cbn; lia.
  - exact norm_zeros7.
  - apply fftconvolve_kernel; cbn; lia.
  - reflexivity.
  - lia.
Qed.

Lemma corner_annulus_3x3 :
  annulus_pixels 3 3 (grid_bins 3 3 2) 2 = [(0%nat, 0%nat)].
Proof. rewrite annulus_pixels_two by lia. reflexivity. Qed.

(** Two different values have a positive standard deviation. *)
Lemma np_std_two (a b : R) :
  a <> b -> exists s, np_std [a; b] = Fin s /\ 0 < s.
Proof.
  intros Hab. eexists. split; [reflexivity |].
  apply sqrt_lt_R0. unfold np_mean.
  cbn [np_sum fold_right map length INR].
  apply Rdiv_lt_0_compat; [| lra].
  set (m := (a + (b + 0)) / (1 + 1)).
  assert (a - m <> 0 \/ b - m <> 0) as [H | H].
  { destruct (Req_dec_T (a - m) 0) as [E | E]; [right | now left].
    intros E'. apply Hab. lra. }
  - pose proof (Rsqr_pos_lt _ H) as Hp. rewrite Rsqr_pow2 in Hp.
    assert (0 <= (b - m) ^ 2) by apply pow2_ge_0. lra.
  - pose proof (Rsqr_pos_lt _ H) as Hp. rewrite Rsqr_pow2 in Hp.
    assert (0 <= (a - m) ^ 2) by apply pow2_ge_0. lra.
Qed.

(** A 7 x 5 pair: the convolved grid is 3 x 1, the unocculted image is
    negative, and the two pixels of annulus 1 differ. *)
Lemma norm_negative75 :
  np_max (ravel (conv_valid (constant_image 7 5 (-1)) kernel)) = Ok (-13).
Proof.
  apply np_max_flat; cbn [nrows ncols conv_valid constant_image kernel];
    try lia.
  intros. rewrite conv_constant. lra.
Qed.

Lemma unique_3x1 :
  np_unique (annuli_values 3 1 (grid_bins 3 1 2)) = [1%nat; 2%nat].
Proof. rewrite annuli_values_two by lia. reflexivity. Qed.

Lemma annulus1_3x1 :
  annulus_pixels 3 1 (grid_bins 3 1 2) 1 = [(1%nat, 0%nat); (2%nat, 0%nat)].
Proof. rewrite annulus_pixels_two by lia. reflexivity. Qed.

Lemma quick_contrast_negative75 :
  exists s cv,
    quick_contrast (one_pixel 7 5 6 2 2) (constant_image 7 5 (-1)) 2 =
    Ok (grid_bins 3 1 2, Fin (s / -13) :: cv) /\ 0 < s.
Proof.
  destruct (np_std_two 13 14 ltac:(lra)) as (s & Hs & Hpos).
  exists s. eexists. split; [| exact Hpos].
  rewrite (quick_contrast_ok _ _ (conv_valid (constant_image 7 5 (-1)) kernel)
             (conv_valid (one_pixel 7 5 6 2 2) kernel) 2 (-13)).
  - change (nrows (conv_valid (constant_image 7 5 (-1)) kernel)) with 3%nat.
    change (ncols (conv_valid (constant_image 7 5 (-1)) kernel)) with 1%nat.
    unfold contrast_of. rewrite unique_3x1. cbn [map].
    unfold annulus_select at 1. rewrite annulus1_3x1. cbn [map fst snd].
    replace (at_ (conv_valid (one_pixel 7 5 6 2 2) kernel) 1 0) with 13
      by (conv_eval; lra).
    replace (at_ (conv_valid (one_pixel 7 5 6 2 2) kernel) 2 0) with 14
      by (conv_eval; lra).
    rewrite Hs. cbn [fdiv].
    destruct (Req_dec_T (-13) 0) as [E | _]; [exfalso; lra |]. reflexivity.
  - apply fftconvolve_kernel; cbn; lia.
  - exact norm_negative75.
  - apply fftconvolve_kernel; cbn; lia.
  - reflexivity.
  - lia.
Qed.

(** Images smaller than the kernel on both axes: [fftconvolve] swaps its
    arguments and returns a 3 x 3 array for a 3 x 3 image. *)
Lemma fftconvolve_3x3 (img : ndarray) :
  nrows img = 3%nat -> ncols img = 3%nat ->
  fftconvolve img kernel = Ok (conv_valid kernel img).
Proof.
  intros Hr Hc. unfold fftconvolve, size, fits. rewrite Hr, Hc. reflexivity.
Qed.

Lemma quick_contrast_small (occ O : ndarray) :
  fftconvolve occ kernel = Ok O ->
  shape O = (3%nat, 3%nat) ->
  exists rb cv, quick_contrast occ (ones 3 3) 2 = Ok (rb, cv).
Proof.
  intros Hocc Hs.
  destruct (np_max_ravel_total (conv_valid kernel (ones 3 3))) as [norm Hnorm];
    [cbn; lia | cbn; lia |].
  do 2 eexists.
  apply (quick_contrast_ok _ _ (conv_valid kernel (ones 3 3)) O 2 norm).
  - now apply fftconvolve_3x3.
  - exact Hnorm.
  - exact Hocc.
  - rewrite Hs. reflexivity.
  - lia.
Qed.

End WorkedInputs.

(** * The corner bin, and a 7 x 5 pair with variation *)

Section CornerBin.

Lemma grid_row_major_NoDup (r c : nat) : NoDup (grid r c).
Proof.
  unfold grid. generalize 0%nat at 2. induction r as [| r IH]; intros s.
  - constructor.
  - cbn [seq flat_map]. apply NoDup_app.
    + apply NoDup_map_NoDup_ForallPairs; [| apply seq_NoDup].
      intros x y _ _ E. now injection E.
    + apply IH.
    + intros [i j] H1 H2.
      apply in_map_iff in H1. destruct H1 as (j' & Heq & _).
      injection Heq as <- _.
      apply in_flat_map in H2. destruct H2 as (i' & Hi' & Hj').
      apply in_seq in Hi'. apply in_map_iff in Hj'.
      destruct Hj' as (j'' & Heq' & _). injection Heq' as -> _. lia.
Qed.

Lemma filter_none {A : Type} (f : A -> bool) (l : list A) :
  (forall x, In x l -> f x = false) -> filter f l = [].
Proof.
  induction l as [| a l IH]; intros H; cbn [filter]; [reflexivity |].
  rewrite (H a) by now left. apply IH. intros x Hx. apply H. now right.
Qed.

(** The annulus of the last index holds the corner pixel and nothing
    else. *)
Lemma corner_annulus (r c : nat) (n : Z) :
  (1 <= r)%nat -> (1 <= c)%nat -> (2 <= n)%Z ->
  annulus_pixels r c (grid_bins r c n) (Z.to_nat n) = [(0%nat, 0%nat)].
Proof.
  intros Hr Hc Hn. unfold annulus_pixels.
  pose proof (grid_row_major_NoDup r c) as Hnd.
  pose proof (fun i j => in_grid r c i j) as Hin.
  destruct (grid_nonempty r c Hr Hc) as [l E]. rewrite E in *.
  cbn [filter fst snd].
  assert (annuli_inds r c (grid_bins r c n) 0 0 = Z.to_nat n) as E0
    by (apply annuli_inds_corner; try assumption; try lia; reflexivity).
  rewrite E0, Nat.eqb_refl. f_equal.
  apply filter_none. intros [i j] Hp. cbn [fst snd].
  apply Nat.eqb_neq. intros Eidx.
  assert (In (i, j) ((0%nat, 0%nat) :: l)) as Hg by now right.
  apply Hin in Hg.
  apply (annuli_inds_corner r c n Hr Hc Hn i j) in Eidx; try tauto.
  injection Eidx as -> ->. inversion Hnd; contradiction.
Qed.

(** The 7 x 5 occulted image with pixel (6, 2) set to 2: its convolution is
    13, 13, 14 down the 3 x 1 grid, so the two pixels of annulus 1 differ. *)
Lemma contrast_of_75 (norm : R) :
  exists s, 0 < s /\
    contrast_of (conv_valid (one_pixel 7 5 6 2 2) kernel) 3 1 norm
                (grid_bins 3 1 2) =
    [fdiv (Fin s) norm; fdiv (Fin 0) norm].
Proof.
  destruct (np_std_two 13 14 ltac:(lra)) as (s & Hs & Hpos).
  exists s. split; [exact Hpos |].
  unfold contrast_of. rewrite unique_3x1. cbn [map].
  unfold annulus_select. rewrite annulus1_3x1.
  replace (annulus_pixels 3 1 (grid_bins 3 1 2) 2) with [(0%nat, 0%nat)]
    by (rewrite annulus_pixels_two by lia; reflexivity).
  cbn [map fst snd].
  replace (at_ (conv_valid (one_pixel 7 5 6 2 2) kernel) 1 0) with 13
    by (conv_eval; lra).
  replace (at_ (conv_valid (one_pixel 7 5 6 2 2) kernel) 2 0) with 14
    by (conv_eval; lra).
  now rewrite Hs, np_std_single.
Qed.

Lemma norm_constant75 (v : R) :
  np_max (ravel (conv_valid (constant_image 7 5 v) kernel)) = Ok (13 * v).
Proof.
  apply np_max_flat; cbn [nrows ncols conv_valid constant_image kernel];
    try lia.
  intros. apply conv_constant.
Qed.

Lemma quick_contrast_75 (v : R) :
  exists s, 0 < s /\
    quick_contrast (one_pixel 7 5 6 2 2) (constant_image 7 5 v) 2 =
    Ok (grid_bins 3 1 2, [fdiv (Fin s) (13 * v); fdiv (Fin 0) (13 * v)]).
Proof.
  destruct (contrast_of_75 (13 * v)) as (s & Hpos & Hcv).
  exists s. split; [exact Hpos |].
  rewrite (quick_contrast_ok _ _ (conv_valid (constant_image 7 5 v) kernel)
             (conv_valid (one_pixel 7 5 6 2 2) kernel) 2 (13 * v)).
  - change (nrows (conv_valid (constant_image 7 5 v) kernel)) with 3%nat.
    change (ncols (conv_valid (constant_image 7 5 v) kernel)) with 1%nat.
    now rewrite Hcv.
  - apply fftconvolve_kernel; cbn; lia.
  - apply norm_constant75.
  - apply fftconvolve_kernel; cbn; lia.
  - reflexivity.
  - lia.
Qed.

(** With an all-ones unocculted image ([norm = 13]): a positive value, then
    0 for the corner. *)
Lemma quick_contrast_pos75 :
  exists s, 0 < s /\
    quick_contrast (one_pixel 7 5 6 2 2) (ones 7 5) 2 =
    Ok (grid_bins 3 1 2, [Fin (s / 13); Fin 0]).
Proof.
  destruct (quick_contrast_75 1) as (s & Hpos & H).
  exists s. split; [exact Hpos |]. unfold ones. rewrite H.
  replace (13 * 1) with 13 by lra. rewrite fdiv_zero by lra.
  cbn [fdiv]. destruct (Req_dec_T 13 0) as [E | _]; [exfalso; lra |].
  reflexivity.
Qed.

(** With an all-zero unocculted image ([norm = 0]): inf, then nan for the
    corner. *)
Lemma quick_contrast_zero75 :
  quick_contrast (one_pixel 7 5 6 2 2) (constant_image 7 5 0) 2 =
  Ok (grid_bins 3 1 2, [PInf; NaN]).
Proof.
  destruct (quick_contrast_75 0) as (s & Hpos & H). rewrite H.
  replace (13 * 0) with 0 by lra. rewrite fdiv_zero_zero.
  cbn [fdiv]. destruct (Req_dec_T 0 0) as [_ | E]; [| exfalso; lra].
  destruct (Req_dec_T s 0) as [E | _]; [exfalso; lra |].
  destruct (Rlt_dec 0 s) as [_ | E]; [reflexivity | exfalso; lra].
Qed.

Lemma fdiv_std_by_zero (s : R) :
  0 <= s -> fdiv (Fin s) 0 = if Req_dec_T s 0 then NaN else PInf.
Proof.
  intros Hs. cbn [fdiv]. destruct (Req_dec_T 0 0) as [_ | E]; [| exfalso; lra].
  destruct (Req_dec_T s 0); [reflexivity |].
  destruct (Rlt_dec 0 s); [reflexivity | exfalso; lra].
Qed.

End CornerBin.

(** * The properties of the design document *)

Section Claims.

Lemma quick_contrast_result (occ unocc U O : ndarray) (n : Z) (norm : R)
    (rb : list R) (cv : list fvalue) :
  fftconvolve unocc kernel = Ok U ->
  np_max (ravel U) = Ok norm ->
  fftconvolve occ kernel = Ok O ->
  quick_contrast occ unocc n = Ok (rb, cv) ->
  rb = grid_bins (nrows U) (ncols U) n /\
  cv = contrast_of O (nrows U) (ncols U) norm rb /\
  shape O = shape U /\ (0 <= n)%Z /\
  (1 <= nrows U)%nat /\ (1 <= ncols U)%nat.
Proof.
  intros HU Hnorm HO H.
  destruct (quick_contrast_inv occ unocc n rb cv H)
    as (U' & O' & norm' & HU' & Hnorm' & HO' & Hs & Hn & Hrb & Hcv).
  rewrite HU in HU'. injection HU' as <-.
  rewrite Hnorm in Hnorm'. injection Hnorm' as <-.
  rewrite HO in HO'. injection HO' as <-.
  destruct (np_max_ravel_ok U norm Hnorm) as [Hr Hc].
  repeat split; assumption.
Qed.



(** C2 (as the code has it).  A pixel of the convolved grid at distance [d]
    from the centre has bin index [k] exactly when
    [edge[k-1] <= d < edge[k]], for the indices [1 <= k < n_annuli] between
    two of the [n_annuli] edges, and its value enters the contrast entry of
    that index.  A pixel at or beyond the last edge gets index [n_annuli],
    one more than the index of the last interval between two edges, which
    holds only pixels strictly below the last edge.  The corner (0, 0) is the
    one pixel there: it forms a bin of its own, and the standard deviation of
    that single value over [norm] is the last entry of the contrast
    sequence. *)
Theorem C2_digitize_edges
    (occ unocc U O : ndarray) (n : Z) (norm : R)
    (rb : list R) (cv : list fvalue) (i j : nat) :
  fftconvolve unocc kernel = Ok U ->
  np_max (ravel U) = Ok norm ->
  fftconvolve occ kernel = Ok O ->
  quick_contrast occ unocc n = Ok (rb, cv) ->
  (2 <= n)%Z ->
  (i < nrows U)%nat -> (j < ncols U)%nat ->
  let r := nrows U in
  let c := ncols U in
  let d := radial r c i j in
  let idx := annuli_inds r c rb i j in
  let inds := np_unique (annuli_values r c rb) in
  length rb = Z.to_nat n /\
  (forall k, (1 <= k < Z.to_nat n)%nat ->
     idx = k <-> nth (k - 1) rb 0 <= d < nth k rb 0) /\
  (1 <= idx <= Z.to_nat n)%nat /\
  (exists pos, (pos < length cv)%nat /\ nth pos inds 0%nat = idx /\
     In (at_ O i j) (annulus_select O r c rb idx) /\
     nth pos cv NaN = fdiv (np_std (annulus_select O r c rb idx)) norm) /\
  (nth (Z.to_nat n - 1) rb 0 <= d <-> idx = Z.to_nat n) /\
  (idx = Z.to_nat n <-> (i, j) = (0%nat, 0%nat)) /\
  annulus_select O r c rb (Z.to_nat n) = [at_ O 0 0] /\
  (forall p, In p (annulus_pixels r c rb (Z.to_nat n - 1)) ->
     radial r c (fst p) (snd p) < nth (Z.to_nat n - 1) rb 0) /\
  last inds 0%nat = Z.to_nat n /\
  last cv NaN = fdiv (np_std [at_ O 0 0]) norm.
Proof.
  intros HU Hnorm HO H Hn Hi Hj r c d idx inds.
  destruct (quick_contrast_result occ unocc U O n norm rb cv HU Hnorm HO H)
    as (Hrb & Hcv & _ & _ & Hr & Hc).
  fold r c in Hrb, Hcv, Hr, Hc.
  assert (annulus_select O r c rb (Z.to_nat n) = [at_ O 0 0]) as Hcorner.
  { unfold annulus_select. rewrite Hrb.
    now rewrite (corner_annulus r c n Hr Hc Hn). }
  assert (last inds 0%nat = Z.to_nat n) as Hlast
    by (unfold inds; rewrite Hrb; now apply unique_last_overflow).
  assert (inds <> []) as Hne
    by (apply np_unique_nonempty; now apply annuli_values_nonempty).
  split; [rewrite Hrb; apply grid_bins_length |].
  split; [intros k Hk; unfold idx, d; rewrite Hrb; now apply annuli_inds_iff |].
  split; [unfold idx; rewrite Hrb; now apply annuli_inds_range |].
  split.
  { assert (In idx inds) as Hin.
    { apply np_unique_In. unfold annuli_values. apply in_map_iff.
      exists (i, j). split; [reflexivity | apply in_grid; tauto]. }
    destruct (In_nth inds idx 0%nat Hin) as (pos & Hpos & Enth).
    exists pos. split; [rewrite Hcv, contrast_of_length; exact Hpos |].
    split; [exact Enth |]. split.
    - unfold annulus_select, annulus_pixels. apply in_map_iff.
      exists (i, j). split; [reflexivity |].
      apply filter_In. split; [apply in_grid; tauto |].
      cbn [fst snd]. apply Nat.eqb_refl.
    - rewrite Hcv, contrast_of_nth by exact Hpos. fold inds. now rewrite Enth. }
  split.
  { unfold idx, d. rewrite Hrb. split; intros E.
    - now apply annuli_inds_overflow.
    - now apply annuli_inds_overflow in E. }
  split; [unfold idx; rewrite Hrb; now apply annuli_inds_corner |].
  split; [exact Hcorner |].
  split.
  { intros [pi pj] Hp. unfold annulus_pixels in Hp. apply filter_In in Hp.
    destruct Hp as [_ Hp]. apply Nat.eqb_eq in Hp. cbn [fst snd] in *.
    rewrite Hrb in Hp |- *.
    apply (annuli_inds_iff r c n Hr Hc Hn pi pj (Z.to_nat n - 1)) in Hp;
      [| lia].
    tauto. }
  split; [exact Hlast |].
  rewrite Hcv. unfold contrast_of. fold inds.
  rewrite last_map with (d := 0%nat) by exact Hne.
  now rewrite Hlast, Hcorner.
Qed.

Lemma C2_witness :
  exists s, 0 < s /\
    quick_contrast (one_pixel 7 5 6 2 2) (ones 7 5) 2 =
      Ok (grid_bins 3 1 2, [Fin (s / 13); Fin 0]) /\
    (1 <= annuli_inds 3 1 (grid_bins 3 1 2) 2 0 <= 2)%nat.
Proof.
  destruct quick_contrast_pos75 as (s & Hpos & H).
  exists s. split; [exact Hpos |]. split; [exact H |].
  exact (proj1 (proj2 (proj2
    (C2_digitize_edges (one_pixel 7 5 6 2 2) (ones 7 5)
       (conv_valid (ones 7 5) kernel)
       (conv_valid (one_pixel 7 5 6 2 2) kernel)
       2 (13 * 1) (grid_bins 3 1 2) [Fin (s / 13); Fin 0] 2 0
       (fftconvolve_kernel (ones 7 5) ltac:(cbn; lia) ltac:(cbn; lia))
       (norm_constant75 1)
       (fftconvolve_kernel (one_pixel 7 5 6 2 2) ltac:(cbn; lia) ltac:(cbn; lia))
       H ltac:(lia) ltac:(cbn; lia) ltac:(cbn; lia))))).
Defined.

(** C2, as stated, fails: on the 3 x 3 grid of a 7 x 7 pair with
    [n_annuli = 2] the corner pixel lies at the last edge and gets index 2;
    it is not put with the eight pixels of the one interval between the two
    edges, which have index 1, but forms a second bin that holds it alone. *)
Lemma C2_counterexample :
  nth 1 (grid_bins 3 3 2) 0 <= radial 3 3 0 0 /\
  annuli_inds 3 3 (grid_bins 3 3 2) 0 0 = 2%nat /\
  annulus_pixels 3 3 (grid_bins 3 3 2) 2 = [(0%nat, 0%nat)] /\
  annulus_pixels 3 3 (grid_bins 3 3 2) 1 =
    [(0, 1); (0, 2); (1, 0); (1, 1); (1, 2); (2, 0); (2, 1); (2, 2)]%nat /\
  np_unique (annuli_values 3 3 (grid_bins 3 3 2)) = [1%nat; 2%nat] /\
  exists cv,
    quick_contrast (one_pixel 7 7 3 3 10) (ones 7 7) 2 =
      Ok (grid_bins 3 3 2, cv) /\
    length cv = 2%nat.
Proof.
  split.
  { change 1%nat with (Z.to_nat 2 - 1)%nat at 1.
    rewrite grid_bins_last by lia. lra. }
  split; [rewrite annuli_inds_two by lia; reflexivity |].
  split; [exact corner_annulus_3x3 |].
  split; [rewrite annulus_pixels_two by lia; reflexivity |].
  split; [exact unique_3x3 |].
  exists [Fin 0; Fin 0]. split; [exact quick_contrast_center10 | reflexivity].
Qed.

(** C3 (as the code has it).  [quick_contrast] has no size check of its
    own.  It raises when an input image is empty, when an image is smaller
    than the 5 x 5 kernel on one axis and larger on the other, and when the
    two 'valid' convolutions differ in shape. *)
Theorem C3_shape_errors (occ unocc : ndarray) (n : Z) :
  straddles unocc \/ straddles occ \/
  size unocc = 0%nat \/ size occ = 0%nat \/
  (exists U O, fftconvolve unocc kernel = Ok U /\
               fftconvolve occ kernel = Ok O /\ shape O <> shape U) ->
  exists e, quick_contrast occ unocc n = Raise e.
Proof.
  intros H. rewrite quick_contrast_nf.
  destruct (fftconvolve unocc kernel) as [U | e] eqn:HU; cbn [bind]; [| eauto].
  destruct (np_max (ravel U)) as [norm | e] eqn:Hnorm; cbn [bind]; [| eauto].
  destruct (fftconvolve occ kernel) as [O | e] eqn:HO; cbn [bind]; [| eauto].
  destruct (n <? 0)%Z; [eauto |].
  destruct (shape_eqb O U) eqn:Es; [exfalso | eauto].
  apply shape_eqb_spec in Es.
  destruct (np_max_ravel_ok U norm Hnorm) as [Hr Hc].
  destruct H as [H | [H | [H | [H | H]]]].
  - rewrite (fftconvolve_straddles unocc H) in HU. discriminate.
  - rewrite (fftconvolve_straddles occ H) in HO. discriminate.
  - rewrite (fftconvolve_empty unocc H) in HU. injection HU as <-.
    cbn in Hr. lia.
  - rewrite (fftconvolve_empty occ H) in HO. injection HO as <-.
    unfold shape in Es. cbn in Es. injection Es as E1 E2. lia.
  - destruct H as (U' & O' & HU' & HO' & Hne). congruence.
Qed.

Lemma C3_witness :
  exists e, quick_contrast (ones 7 7) (ones 3 7) 2 = Raise e.
Proof.
  apply (C3_shape_errors (ones 7 7) (ones 3 7) 2).
  left. left. cbn. lia.
Defined.

(** C3, as stated, fails: two 3 x 3 images, smaller than the kernel on both
    axes, give a result ([fftconvolve] swaps image and kernel), and so does a
    7 x 7 occulted image with a 3 x 3 unocculted one, although their shapes
    differ. *)
Lemma C3_counterexample :
  (nrows (ones 3 3) < nrows kernel)%nat /\
  (exists rb cv, quick_contrast (ones 3 3) (ones 3 3) 2 = Ok (rb, cv)) /\
  shape (ones 7 7) <> shape (ones 3 3) /\
  (exists rb cv, quick_contrast (ones 7 7) (ones 3 3) 2 = Ok (rb, cv)).
Proof.
  split; [cbn; lia |]. split; [| split].
  - apply (quick_contrast_small (ones 3 3) (conv_valid kernel (ones 3 3))).
    + now apply fftconvolve_3x3.
    + reflexivity.
  - discriminate.
  - apply (quick_contrast_small (ones 7 7) (conv_valid (ones 7 7) kernel)).
    + apply fftconvolve_kernel; cbn; lia.
    + reflexivity.
Qed.

(** C4 (as the code has it).  The source has no normalization check.  When
    the peak [norm] of the convolved unocculted image is zero and nothing
    else fails (both convolutions succeed with equal shapes and [n_annuli] is
    not negative), [quick_contrast] reports no failure: it returns the edges
    and one contrast value per occupied annulus, nan where the standard
    deviation of the annulus is 0 and inf where it is positive. *)
Theorem C4_zero_norm_returns (occ unocc U O : ndarray) (n : Z) :
  fftconvolve unocc kernel = Ok U ->
  np_max (ravel U) = Ok 0 ->
  fftconvolve occ kernel = Ok O ->
  shape O = shape U ->
  (0 <= n)%Z ->
  let r := nrows U in
  let c := ncols U in
  let rb := grid_bins r c n in
  let inds := np_unique (annuli_values r c rb) in
  exists cv,
    quick_contrast occ unocc n = Ok (rb, cv) /\
    length cv = length inds /\
    forall k, (k < length inds)%nat ->
      exists s,
        np_std (annulus_select O r c rb (nth k inds 0%nat)) = Fin s /\
        0 <= s /\
        nth k cv NaN = if Req_dec_T s 0 then NaN else PInf.
Proof.
  intros HU Hnorm HO Hs Hn r c rb inds.
  exists (contrast_of O r c 0 rb). split; [| split].
  - now apply (quick_contrast_ok occ unocc U O n 0).
  - apply contrast_of_length.
  - intros k Hk.
    assert (In (nth k inds 0%nat) inds) as Hin by now apply nth_In.
    destruct (np_std_fin _ (annulus_select_nonempty O r c rb _ Hin))
      as (s & Es & Hpos).
    exists s. split; [exact Es |]. split; [exact Hpos |].
    rewrite contrast_of_nth by exact Hk. fold inds. rewrite Es.
    now apply fdiv_std_by_zero.
Qed.

Lemma C4_witness :
  exists cv,
    quick_contrast (one_pixel 7 5 6 2 2) (constant_image 7 5 0) 2 =
      Ok (grid_bins 3 1 2, cv) /\
    length cv = length (np_unique (annuli_values 3 1 (grid_bins 3 1 2))).
Proof.
  destruct (C4_zero_norm_returns (one_pixel 7 5 6 2 2) (constant_image 7 5 0)
              (conv_valid (constant_image 7 5 0) kernel)
              (conv_valid (one_pixel 7 5 6 2 2) kernel) 2
              (fftconvolve_kernel (constant_image 7 5 0) ltac:(cbn; lia) ltac:(cbn; lia))
              (eq_trans (norm_constant75 0) (f_equal Ok (Rmult_0_r 13)))
              (fftconvolve_kernel (one_pixel 7 5 6 2 2) ltac:(cbn; lia) ltac:(cbn; lia))
              eq_refl ltac:(lia)) as (cv & H & Hlen & _).
  exists cv. split; [exact H | exact Hlen].
Defined.

(** C4, as stated, fails: for an all-zero 7 x 5 unocculted image the peak is
    0 and the call returns a contrast sequence, inf for the annulus whose two
    pixels differ and nan for the corner. *)
Lemma C4_counterexample :
  np_max (ravel (conv_valid (constant_image 7 5 0) kernel)) = Ok 0 /\
  quick_contrast (one_pixel 7 5 6 2 2) (constant_image 7 5 0) 2 =
    Ok (grid_bins 3 1 2, [PInf; NaN]).
Proof.
  split; [| exact quick_contrast_zero75].
  rewrite norm_constant75. f_equal. lra.
Qed.

(** C5 (as the code has it).  The contrast sequence has one entry per
    distinct occupied bin index, in increasing order of index, so its length
    is the number of occupied bins, which can be less than [n_annuli].  An
    annulus of exactly one pixel has standard deviation 0 and contributes
    contrast 0 when [norm] is not zero.  An index without pixels is not among
    the entries, and no entry is the nan of an empty selection. *)
Theorem C5_occupied_bins
    (occ unocc U O : ndarray) (n : Z) (norm : R)
    (rb : list R) (cv : list fvalue) :
  fftconvolve unocc kernel = Ok U ->
  np_max (ravel U) = Ok norm ->
  fftconvolve occ kernel = Ok O ->
  quick_contrast occ unocc n = Ok (rb, cv) ->
  let r := nrows U in
  let c := ncols U in
  let inds := np_unique (annuli_values r c rb) in
  StronglySorted lt inds /\
  (forall a, In a inds <-> annulus_pixels r c rb a <> []) /\
  length cv = length inds /\
  (forall k, (k < length inds)%nat ->
     nth k cv NaN =
     fdiv (np_std (annulus_select O r c rb (nth k inds 0%nat))) norm) /\
  (forall a, length (annulus_pixels r c rb a) = 1%nat ->
     np_std (annulus_select O r c rb a) = Fin 0 /\
     (norm <> 0 -> fdiv (np_std (annulus_select O r c rb a)) norm = Fin 0)) /\
  (forall a, In a inds -> np_std (annulus_select O r c rb a) <> NaN) /\
  (exists rb' cv',
     quick_contrast (ones 5 5) (ones 5 5) 2 = Ok (rb', cv') /\
     (length cv' < 2)%nat).
Proof.
  intros HU Hnorm HO H r c inds.
  destruct (quick_contrast_result occ unocc U O n norm rb cv HU Hnorm HO H)
    as (Hrb & Hcv & _ & _ & Hr & Hc).
  subst r c inds.
  split; [apply np_unique_sorted |].
  split; [intros a; apply annulus_pixels_occupied |].
  split; [rewrite Hcv; apply contrast_of_length |].
  split; [intros k Hk; rewrite Hcv; now apply contrast_of_nth |].
  split.
  { intros a Ha. unfold annulus_select.
    destruct (annulus_pixels (nrows U) (ncols U) rb a) as [| p [| q l]];
      try discriminate.
    cbn [map]. rewrite np_std_single. split; [reflexivity |].
    intros Hne. now apply fdiv_zero. }
  split.
  { intros a Ha.
    destruct (np_std_fin _ (annulus_select_nonempty O _ _ rb a Ha)) as (s & -> & _).
    discriminate. }
  eexists. eexists. split.
  - apply (quick_contrast_ok _ _ (conv_valid (ones 5 5) kernel)
             (conv_valid (ones 5 5) kernel) 2 13).
    + apply fftconvolve_kernel; cbn; lia.
    + apply np_max_flat; cbn [nrows ncols conv_valid ones constant_image kernel];
        try lia.
      intros. apply conv_ones.
    + apply fftconvolve_kernel; cbn; lia.
    + reflexivity.
    + lia.
  - rewrite contrast_of_length.
    change (nrows (conv_valid (ones 5 5) kernel)) with 1%nat.
    change (ncols (conv_valid (ones 5 5) kernel)) with 1%nat.
    rewrite annuli_values_two by lia. cbn. lia.
Qed.

Lemma C5_witness :
  length [Fin 0; Fin 0] =
  length (np_unique (annuli_values 3 3 (grid_bins 3 3 2))).
Proof.
  exact (proj1 (proj2 (proj2
    (C5_occupied_bins (ones 7 7) (ones 7 7)
       (conv_valid (ones 7 7) kernel) (conv_valid (ones 7 7) kernel)
       2 13 (grid_bins 3 3 2) [Fin 0; Fin 0]
       (fftconvolve_kernel (ones 7 7) ltac:(cbn; lia) ltac:(cbn; lia))
       norm_ones7
       (fftconvolve_kernel (ones 7 7) ltac:(cbn; lia) ltac:(cbn; lia))
       quick_contrast_ones7)))).
Defined.

(** C5, as stated, fails: with an all-zero unocculted image the annulus of
    index 2 holds exactly one pixel and contributes nan, not 0. *)
Lemma C5_counterexample :
  length (annulus_pixels 3 3 (grid_bins 3 3 2) 2) = 1%nat /\
  exists rb cv,
    quick_contrast (ones 7 7) (constant_image 7 7 0) 2 = Ok (rb, cv) /\
    np_unique (annuli_values 3 3 rb) = [1%nat; 2%nat] /\
    nth 1 cv (Fin 0) = NaN.
Proof.
  split; [now rewrite corner_annulus_3x3 |].
  exists (grid_bins 3 3 2), [NaN; NaN].
  split; [exact quick_contrast_zeros7 |].
  split; [exact unique_3x3 | reflexivity].
Qed.

(** C6.  For images at least as large as the kernel and [n_annuli >= 2]: the
    convolved grid has [rows - 4] by [cols - 4] pixels, and whenever the
    call returns (it does when the two images have the same shape),
    [radial_bins] has exactly [n_annuli] entries [k * step] with a positive
    [step], starting at 0 and ending at
    [sqrt((r/2)**2 + (c/2)**2)] for that [r] x [c] grid: the distance of
    pixel (0, 0) from [shape / 2], which no pixel of the grid exceeds. *)
Theorem C6_radial_bins (occ unocc : ndarray) (n : Z) :
  (5 <= nrows unocc)%nat -> (5 <= ncols unocc)%nat -> (2 <= n)%Z ->
  let r := (nrows unocc - 4)%nat in
  let c := (ncols unocc - 4)%nat in
  let top := sqrt ((INR r / 2) ^ 2 + (INR c / 2) ^ 2) in
  let step := top / INR (Z.to_nat n - 1) in
  (forall U, fftconvolve unocc kernel = Ok U -> shape U = (r, c)) /\
  (shape occ = shape unocc ->
   exists rb cv, quick_contrast occ unocc n = Ok (rb, cv)) /\
  (forall rb cv,
     quick_contrast occ unocc n = Ok (rb, cv) ->
     length rb = Z.to_nat n /\
     0 < step /\
     (forall k, (k < Z.to_nat n)%nat -> nth k rb 0 = INR k * step) /\
     nth 0 rb 0 = 0 /\
     nth (Z.to_nat n - 1) rb 0 = top /\
     (forall i j, (i < r)%nat -> (j < c)%nat ->
        sqrt ((INR i - INR r / 2) ^ 2 + (INR j - INR c / 2) ^ 2) <= top) /\
     sqrt ((INR 0 - INR r / 2) ^ 2 + (INR 0 - INR c / 2) ^ 2) = top).
Proof.
  intros Hr Hc Hn r c top step.
  pose proof (fftconvolve_kernel unocc Hr Hc) as HU.
  assert (nrows (conv_valid unocc kernel) = r) as Er
    by (subst r; cbn [nrows conv_valid kernel]; lia).
  assert (ncols (conv_valid unocc kernel) = c) as Ec
    by (subst c; cbn [ncols conv_valid kernel]; lia).
  assert (1 <= r)%nat as Hr1 by (subst r; lia).
  assert (1 <= c)%nat as Hc1 by (subst c; lia).
  assert (radial r c 0 0 = top) as Etop.
  { unfold radial, top. f_equal. cbn [INR]. ring. }
  assert (0 < top) as Htop by (rewrite <- Etop; now apply radial_corner_pos).
  split; [| split].
  - intros U HU'. rewrite HU in HU'. injection HU' as <-.
    unfold shape. now rewrite Er, Ec.
  - intros Hs. unfold shape in Hs. injection Hs as Eor Eoc.
    destruct (np_max_ravel_total (conv_valid unocc kernel)) as [norm Hnorm];
      [lia | lia |].
    do 2 eexists.
    apply (quick_contrast_ok occ unocc (conv_valid unocc kernel)
             (conv_valid occ kernel) n norm); try assumption.
    + apply fftconvolve_kernel; lia.
    + unfold shape, conv_valid. cbn [nrows ncols]. now rewrite Eor, Eoc.
    + lia.
  - intros rb cv H.
    destruct (quick_contrast_inv occ unocc n rb cv H)
      as (U' & O' & norm' & HU' & _ & _ & _ & _ & Hrb & _).
    rewrite HU in HU'. injection HU' as <-. rewrite Er, Ec in Hrb. subst rb.
    split; [apply grid_bins_length |].
    split.
    { unfold step. apply Rdiv_lt_0_compat; [exact Htop |].
      apply lt_0_INR. lia. }
    split.
    { intros k Hk. unfold grid_bins, step. rewrite Etop.
      apply edges_nth; lia. }
    split; [now apply grid_bins_first |].
    split; [rewrite grid_bins_last by assumption; exact Etop |].
    split.
    + intros i j Hi Hj. rewrite <- Etop.
      exact (radial_le_corner r c i j Hi Hj).
    + exact Etop.
Qed.

Lemma C6_witness :
  exists rb cv, quick_contrast (ones 7 7) (ones 7 7) 2 = Ok (rb, cv).
Proof.
  exact (proj1 (proj2 (C6_radial_bins (ones 7 7) (ones 7 7) 2
                  ltac:(cbn; lia) ltac:(cbn; lia) ltac:(lia))) eq_refl).
Defined.

(** C9 (as the code has it).  When the normalization constant [norm] is
    positive, every element of the returned contrast sequence is finite and
    greater than or equal to 0. *)
Theorem C9_nonnegative
    (occ unocc U : ndarray) (n : Z) (norm : R)
    (rb : list R) (cv : list fvalue) :
  fftconvolve unocc kernel = Ok U ->
  np_max (ravel U) = Ok norm ->
  0 < norm ->
  quick_contrast occ unocc n = Ok (rb, cv) ->
  Forall fge0 cv.
Proof.
  intros HU Hnorm Hpos H.
  destruct (quick_contrast_inv occ unocc n rb cv H)
    as (U' & O' & norm' & HU' & Hnorm' & _ & _ & _ & _ & Hcv).
  rewrite HU in HU'. injection HU' as <-.
  rewrite Hnorm in Hnorm'. injection Hnorm' as <-.
  rewrite Hcv. now apply contrast_of_nonneg.
Qed.

Lemma C9_witness :
  exists s cv,
    0 < s /\
    quick_contrast (one_pixel 7 5 6 2 2) (ones 7 5) 2 =
      Ok (grid_bins 3 1 2, Fin (s / 13) :: cv) /\
    Forall fge0 (Fin (s / 13) :: cv).
Proof.
  destruct quick_contrast_pos75 as (s & Hpos & H).
  exists s, [Fin 0]. split; [exact Hpos |]. split; [exact H |].
  apply (C9_nonnegative (one_pixel 7 5 6 2 2) (ones 7 5)
           (conv_valid (ones 7 5) kernel) 2 (13 * 1) (grid_bins 3 1 2)).
  - apply fftconvolve_kernel; cbn; lia.
  - exact (norm_constant75 1).
  - lra.
  - exact H.
Defined.

(** C9, as stated, fails: a 7 x 5 pair, as large as the kernel, with
    [n_annuli = 2], whose unocculted image is negative, returns a negative
    contrast value. *)
Lemma C9_counterexample :
  (5 <= nrows (one_pixel 7 5 6 2 2))%nat /\
  (5 <= ncols (one_pixel 7 5 6 2 2))%nat /\
  shape (one_pixel 7 5 6 2 2) = shape (constant_image 7 5 (-1)) /\
  exists rb cv,
    quick_contrast (one_pixel 7 5 6 2 2) (constant_image 7 5 (-1)) 2 =
      Ok (rb, cv) /\
    ~ Forall fge0 cv.
Proof.
  split; [cbn; lia |]. split; [cbn; lia |]. split; [reflexivity |].
  destruct quick_contrast_negative75 as (s & cv & H & Hs).
  exists (grid_bins 3 1 2), (Fin (s / -13) :: cv). split; [exact H |].
  intros HF. inversion HF as [| ? ? Hge _]; subst. cbn [fge0] in Hge.
  assert (s / -13 < 0).
  { unfold Rdiv. apply Rmult_pos_neg; [exact Hs |].
    apply Rinv_lt_0_compat. lra. }
  lra.
Qed.

(** C10.  The edges depend on the shape of the unocculted image and on
    [n_annuli] only: two successful calls whose unocculted images have the
    same shape return the same [radial_bins], whatever the pixel values. *)
Theorem C10_bins_from_shape
    (occ1 unocc1 occ2 unocc2 : ndarray) (n : Z)
    (rb1 rb2 : list R) (cv1 cv2 : list fvalue) :
  shape unocc1 = shape unocc2 ->
  quick_contrast occ1 unocc1 n = Ok (rb1, cv1) ->
  quick_contrast occ2 unocc2 n = Ok (rb2, cv2) ->
  rb1 = rb2.
Proof.
  intros Hs H1 H2.
  destruct (quick_contrast_inv occ1 unocc1 n rb1 cv1 H1)
    as (U1 & _ & _ & HU1 & _ & _ & _ & _ & -> & _).
  destruct (quick_contrast_inv occ2 unocc2 n rb2 cv2 H2)
    as (U2 & _ & _ & HU2 & _ & _ & _ & _ & -> & _).
  pose proof (fftconvolve_shape unocc1 unocc2 U1 U2 Hs HU1 HU2) as HsU.
  unfold shape in HsU. injection HsU as -> ->. reflexivity.
Qed.

Lemma C10_witness :
  fst (grid_bins 3 3 2, [Fin 0; Fin 0]) = fst (grid_bins 3 3 2, [NaN; NaN]).
Proof.
  apply (C10_bins_from_shape
           (one_pixel 7 7 3 3 10) (ones 7 7) (ones 7 7) (constant_image 7 7 0) 2
           (grid_bins 3 3 2) (grid_bins 3 3 2) [Fin 0; Fin 0] [NaN; NaN]).
  - reflexivity.
  - exact quick_contrast_center10.
  - exact quick_contrast_zeros7.
Defined.

End Claims.

(** * Further properties of quick_contrast *)

Section Annuli.

(** [np.digitize] is monotone in its argument. *)
Lemma np_digitize_mono (x y : R) (bins : list R) :
  x <= y -> (np_digitize x bins <= np_digitize y bins)%nat.
Proof.
  intros Hxy. induction bins as [| b bins IH]; cbn [np_digitize]; [lia |].
  destruct (Rlt_dec x b), (Rlt_dec y b); try lia. exfalso. lra.
Qed.

Lemma sorted_nth_lt (l : list nat) (j k : nat) :
  StronglySorted lt l -> (j < k)%nat -> (k < length l)%nat ->
  (nth j l 0 < nth k l 0)%nat.
Proof.
  intros Hs. revert j k. induction Hs as [| a l Hs IH Hall]; intros j k Hjk Hk.
  - cbn in Hk. lia.
  - cbn [length] in Hk. destruct k as [| k]; [lia |]. cbn [nth].
    destruct j as [| j].
    + rewrite Forall_forall in Hall. apply Hall. apply nth_In. lia.
    + apply IH; lia.
Qed.

Lemma group_absent {A : Type} (key : A -> nat) (x : A) (l : list A)
    (keys : list nat) :
  ~ In (key x) keys ->
  flat_map (fun a => filter (fun y => (key y =? a)%nat) (x :: l)) keys =
  flat_map (fun a => filter (fun y => (key y =? a)%nat) l) keys.
Proof.
  induction keys as [| b keys IH]; intros Hnotin; [reflexivity |].
  cbn [flat_map].
  change (filter (fun y => (key y =? b)%nat) (x :: l))
    with (if (key x =? b)%nat
          then x :: filter (fun y => (key y =? b)%nat) l
          else filter (fun y => (key y =? b)%nat) l).
  destruct (Nat.eqb_spec (key x) b) as [E | _];
    [exfalso; apply Hnotin; now left |].
  f_equal. apply IH. intros Hin. apply Hnotin. now right.
Qed.

Lemma group_present {A : Type} (key : A -> nat) (x : A) (l : list A)
    (keys : list nat) :
  NoDup keys -> In (key x) keys ->
  Permutation
    (flat_map (fun a => filter (fun y => (key y =? a)%nat) (x :: l)) keys)
    (x :: flat_map (fun a => filter (fun y => (key y =? a)%nat) l) keys).
Proof.
  induction keys as [| b keys IH]; intros Hnd Hin; [destruct Hin |].
  inversion Hnd as [| ? ? Hnotin Hnd']; subst.
  cbn [flat_map].
  change (filter (fun y => (key y =? b)%nat) (x :: l))
    with (if (key x =? b)%nat
          then x :: filter (fun y => (key y =? b)%nat) l
          else filter (fun y => (key y =? b)%nat) l).
  destruct (Nat.eqb_spec (key x) b) as [E | E].
  - subst b. rewrite (group_absent key x l keys Hnotin). reflexivity.
  - destruct Hin as [Hin | Hin]; [congruence |].
    eapply Permutation_trans;
      [apply Permutation_app_head; apply (IH Hnd' Hin) |].
    apply Permutation_sym, Permutation_middle.
Qed.

(** Grouping a list by a key, over the distinct keys, rearranges the list. *)
Lemma group_by_key {A : Type} (key : A -> nat) (l : list A) (keys : list nat) :
  NoDup keys -> (forall x, In x l -> In (key x) keys) ->
  Permutation (flat_map (fun a => filter (fun x => (key x =? a)%nat) l) keys) l.
Proof.
  intros Hnd. induction l as [| x l IH]; intros Hk.
  - replace (flat_map (fun a => filter (fun x => (key x =? a)%nat) []) keys)
      with (@nil A); [constructor |].
    clear. induction keys as [| a keys IHk]; [reflexivity | exact IHk].
  - eapply Permutation_trans.
    + apply group_present; [exact Hnd | apply Hk; now left].
    + apply perm_skip. apply IH. intros y Hy. apply Hk. now right.
Qed.

Lemma sorted_lt_NoDup (l : list nat) : StronglySorted lt l -> NoDup l.
Proof.
  induction 1 as [| a l Hs IH Hall]; constructor; [| exact IH].
  rewrite Forall_forall in Hall. intros Hin. specialize (Hall a Hin). lia.
Qed.

Lemma annulus_pixels_partition (r c : nat) (bins : list R) :
  Permutation
    (flat_map (annulus_pixels r c bins) (np_unique (annuli_values r c bins)))
    (grid r c).
Proof.
  unfold annulus_pixels.
  apply (group_by_key (fun p => annuli_inds r c bins (fst p) (snd p))).
  - apply sorted_lt_NoDup, np_unique_sorted.
  - intros p Hp. apply np_unique_In. unfold annuli_values.
    apply in_map_iff. now exists p.
Qed.

End Annuli.

Section Structure.

Lemma map_flat_map_comm {A B C : Type} (f : B -> C) (g : A -> list B)
    (l : list A) :
  map f (flat_map g l) = flat_map (fun a => map f (g a)) l.
Proof.
  induction l as [| a l IH]; [reflexivity |].
  cbn [flat_map]. now rewrite map_app, IH.
Qed.

Lemma ravel_as_grid (o : ndarray) (r c : nat) :
  nrows o = r -> ncols o = c ->
  ravel o = map (fun p => at_ o (fst p) (snd p)) (grid r c).
Proof. intros <- <-. reflexivity. Qed.

Lemma np_unique_const (a : nat) (l : list nat) :
  l <> [] -> (forall x, In x l -> x = a) -> np_unique l = [a].
Proof.
  induction l as [| b l IH]; [congruence |]. intros _ H.
  cbn [np_unique fold_right]. fold (np_unique l).
  rewrite (H b) by now left.
  destruct l as [| b' l].
  - reflexivity.
  - rewrite IH by (try discriminate; intros x Hx; apply H; now right).
    cbn [insert_unique]. now rewrite Nat.ltb_irrefl, Nat.eqb_refl.
Qed.

Lemma filter_all {A : Type} (f : A -> bool) (l : list A) :
  (forall x, In x l -> f x = true) -> filter f l = l.
Proof.
  induction l as [| a l IH]; intros H; cbn [filter]; [reflexivity |].
  rewrite (H a) by now left. f_equal. apply IH. intros x Hx. apply H. now right.
Qed.

Lemma annuli_inds_single_edge (r c i j : nat) :
  annuli_inds r c [0] i j = 1%nat.
Proof.
  unfold annuli_inds. cbn [np_digitize].
  destruct (Rlt_dec (radial r c i j) 0) as [Hlt | _]; [| reflexivity].
  pose proof (radial_nonneg r c i j). lra.
Qed.

End Structure.

(** X1.  With [n_annuli >= 2] the bin of the last index, [n_annuli], holds
    exactly one pixel, the corner (0, 0) of the convolved grid: it is the
    only pixel at the largest distance from [shape / 2].  Its standard
    deviation is 0, so the last contrast value is 0 whenever [norm] is not
    zero. *)
Theorem X1_last_value_is_zero
    (occ unocc U O : ndarray) (n : Z) (norm : R)
    (rb : list R) (cv : list fvalue) :
  fftconvolve unocc kernel = Ok U ->
  np_max (ravel U) = Ok norm ->
  fftconvolve occ kernel = Ok O ->
  quick_contrast occ unocc n = Ok (rb, cv) ->
  (2 <= n)%Z ->
  norm <> 0 ->
  annulus_pixels (nrows U) (ncols U) rb (Z.to_nat n) = [(0%nat, 0%nat)] /\
  last (np_unique (annuli_values (nrows U) (ncols U) rb)) 0%nat = Z.to_nat n /\
  last cv NaN = Fin 0.
Proof.
  intros HU Hnorm HO H Hn Hne.
  destruct (quick_contrast_result occ unocc U O n norm rb cv HU Hnorm HO H)
    as (Hrb & Hcv & _ & _ & Hr & Hc).
  subst rb.
  pose proof (corner_annulus (nrows U) (ncols U) n Hr Hc Hn) as Hcorner.
  pose proof (unique_last_overflow (nrows U) (ncols U) n Hr Hc Hn) as Hlast.
  split; [exact Hcorner |]. split; [exact Hlast |].
  rewrite Hcv. unfold contrast_of.
  rewrite last_map with (d := 0%nat)
    by (apply np_unique_nonempty; now apply annuli_values_nonempty).
  rewrite Hlast. unfold annulus_select. rewrite Hcorner. cbn [map].
  rewrite np_std_single. now apply fdiv_zero.
Qed.

Lemma X1_witness : last [Fin 0; Fin 0] NaN = Fin 0.
Proof.
  exact (proj2 (proj2
    (X1_last_value_is_zero (one_pixel 7 7 3 3 10) (ones 7 7)
       (conv_valid (ones 7 7) kernel)
       (conv_valid (one_pixel 7 7 3 3 10) kernel)
       2 13 (grid_bins 3 3 2) [Fin 0; Fin 0]
       (fftconvolve_kernel (ones 7 7) ltac:(cbn; lia) ltac:(cbn; lia))
       norm_ones7
       (fftconvolve_kernel (one_pixel 7 7 3 3 10) ltac:(cbn; lia) ltac:(cbn; lia))
       quick_contrast_center10
       ltac:(lia) ltac:(lra)))).
Defined.

(** X2.  The annuli partition the convolved occulted image: the selections
    [occ_aperture[annuli_inds == a]], taken over the indices of
    [np.unique(annuli_inds)], hold every pixel of [occ_aperture] exactly
    once.  No pixel is left out of the contrast curve and none is counted in
    two annuli. *)
Theorem X2_annuli_partition
    (occ unocc U O : ndarray) (n : Z) (norm : R)
    (rb : list R) (cv : list fvalue) :
  fftconvolve unocc kernel = Ok U ->
  np_max (ravel U) = Ok norm ->
  fftconvolve occ kernel = Ok O ->
  quick_contrast occ unocc n = Ok (rb, cv) ->
  Permutation
    (flat_map (annulus_select O (nrows U) (ncols U) rb)
              (np_unique (annuli_values (nrows U) (ncols U) rb)))
    (ravel O).
Proof.
  intros HU Hnorm HO H.
  destruct (quick_contrast_result occ unocc U O n norm rb cv HU Hnorm HO H)
    as (_ & _ & Hs & _ & _ & _).
  unfold shape in Hs. injection Hs as Er Ec.
  rewrite (ravel_as_grid O (nrows U) (ncols U) Er Ec).
  unfold annulus_select.
  rewrite <- (map_flat_map_comm (fun p => at_ O (fst p) (snd p))).
  apply Permutation_map. apply annulus_pixels_partition.
Qed.

Lemma X2_witness :
  Permutation
    (flat_map (annulus_select (conv_valid (ones 7 7) kernel) 3 3 (grid_bins 3 3 2))
              (np_unique (annuli_values 3 3 (grid_bins 3 3 2))))
    (ravel (conv_valid (ones 7 7) kernel)).
Proof.
  exact (X2_annuli_partition (ones 7 7) (ones 7 7)
           (conv_valid (ones 7 7) kernel) (conv_valid (ones 7 7) kernel)
           2 13 (grid_bins 3 3 2) [Fin 0; Fin 0]
           (fftconvolve_kernel (ones 7 7) ltac:(cbn; lia) ltac:(cbn; lia))
           norm_ones7
           (fftconvolve_kernel (ones 7 7) ltac:(cbn; lia) ltac:(cbn; lia))
           quick_contrast_ones7).
Defined.

(** X3.  The contrast values are ordered by radius: every pixel that enters
    an earlier entry of [contrast] lies strictly closer to [shape / 2] than
    every pixel that enters a later entry. *)
Theorem X3_entries_ordered_by_radius
    (occ unocc U O : ndarray) (n : Z) (norm : R)
    (rb : list R) (cv : list fvalue) (k k' : nat) (p q : nat * nat) :
  fftconvolve unocc kernel = Ok U ->
  np_max (ravel U) = Ok norm ->
  fftconvolve occ kernel = Ok O ->
  quick_contrast occ unocc n = Ok (rb, cv) ->
  let r := nrows U in
  let c := ncols U in
  let inds := np_unique (annuli_values r c rb) in
  (k < k')%nat -> (k' < length cv)%nat ->
  In p (annulus_pixels r c rb (nth k inds 0%nat)) ->
  In q (annulus_pixels r c rb (nth k' inds 0%nat)) ->
  radial r c (fst p) (snd p) < radial r c (fst q) (snd q).
Proof.
  intros HU Hnorm HO H r c inds Hkk Hk' Hp Hq.
  destruct (quick_contrast_result occ unocc U O n norm rb cv HU Hnorm HO H)
    as (_ & Hcv & _ & _ & _ & _).
  rewrite Hcv, contrast_of_length in Hk'. fold r c inds in Hk'.
  pose proof (sorted_nth_lt inds k k' (np_unique_sorted _) Hkk Hk') as Hlt.
  unfold annulus_pixels in Hp, Hq.
  apply filter_In in Hp. destruct Hp as [_ Hp]. apply Nat.eqb_eq in Hp.
  apply filter_In in Hq. destruct Hq as [_ Hq]. apply Nat.eqb_eq in Hq.
  apply Rnot_le_lt. intros Hle.
  pose proof (np_digitize_mono _ _ rb Hle) as Hmono.
  unfold annuli_inds in Hp, Hq. lia.
Qed.

Lemma X3_witness :
  radial 3 3 1 1 < radial 3 3 0 0.
Proof.
  apply (X3_entries_ordered_by_radius (ones 7 7) (ones 7 7)
           (conv_valid (ones 7 7) kernel) (conv_valid (ones 7 7) kernel)
           2 13 (grid_bins 3 3 2) [Fin 0; Fin 0] 0 1
           (1%nat, 1%nat) (0%nat, 0%nat)).
  - apply fftconvolve_kernel; cbn; lia.
  - exact norm_ones7.
  - apply fftconvolve_kernel; cbn; lia.
  - exact quick_contrast_ones7.
  - lia.
  - cbn; lia.
  - change (nrows (conv_valid (ones 7 7) kernel)) with 3%nat.
    change (ncols (conv_valid (ones 7 7) kernel)) with 3%nat.
    rewrite unique_3x3. cbn [nth]. rewrite annulus_pixels_two by lia.
    cbn. tauto.
  - change (nrows (conv_valid (ones 7 7) kernel)) with 3%nat.
    change (ncols (conv_valid (ones 7 7) kernel)) with 3%nat.
    rewrite unique_3x3. cbn [nth]. rewrite annulus_pixels_two by lia.
    cbn. tauto.
Defined.

(** X4.  With [n_annuli = 1] there is one edge, 0, every pixel gets index 1,
    and the single contrast value is the standard deviation of the whole
    convolved occulted image over [norm]. *)
Theorem X4_single_annulus (occ unocc U O : ndarray) (norm : R) :
  fftconvolve unocc kernel = Ok U ->
  np_max (ravel U) = Ok norm ->
  fftconvolve occ kernel = Ok O ->
  shape O = shape U ->
  quick_contrast occ unocc 1 = Ok ([0], [fdiv (np_std (ravel O)) norm]).
Proof.
  intros HU Hnorm HO Hs.
  rewrite (quick_contrast_ok occ unocc U O 1 norm HU Hnorm HO Hs) by lia.
  destruct (np_max_ravel_ok U norm Hnorm) as [Hr Hc].
  unfold shape in Hs. injection Hs as Er Ec.
  assert (grid_bins (nrows U) (ncols U) 1 = [0]) as ->.
  { unfold grid_bins, linspace_samples. change (Z.to_nat 1) with 1%nat.
    cbn [seq map Nat.ltb Nat.leb Nat.eqb Nat.sub andb INR].
    f_equal. ring. }
  f_equal. f_equal. unfold contrast_of.
  assert (np_unique (annuli_values (nrows U) (ncols U) [0]) = [1%nat]) as ->.
  { apply np_unique_const; [now apply annuli_values_nonempty |].
    intros x Hx. unfold annuli_values in Hx. apply in_map_iff in Hx.
    destruct Hx as (p & <- & _). apply annuli_inds_single_edge. }
  cbn [map]. f_equal. f_equal. f_equal.
  unfold annulus_select, annulus_pixels.
  rewrite filter_all.
  - symmetry. now apply ravel_as_grid.
  - intros p _. now rewrite annuli_inds_single_edge.
Qed.

Lemma X4_witness :
  quick_contrast (one_pixel 7 7 3 3 10) (ones 7 7) 1 =
  Ok ([0], [fdiv (np_std (ravel (conv_valid (one_pixel 7 7 3 3 10) kernel))) 13]).
Proof.
  apply (X4_single_annulus (one_pixel 7 7 3 3 10) (ones 7 7)
           (conv_valid (ones 7 7) kernel)
           (conv_valid (one_pixel 7 7 3 3 10) kernel) 13).
  - apply fftconvolve_kernel; cbn; lia.
  - exact norm_ones7.
  - apply fftconvolve_kernel; cbn; lia.
  - reflexivity.
Defined.

(** X5.  A negative [n_annuli] makes [np.linspace] raise ValueError, but only
    once both convolutions and [np.max] have gone through: a failure of an
    image is reported first, and a shape mismatch is masked by it. *)
Theorem X5_negative_n_annuli (occ unocc U O : ndarray) (n : Z) (norm : R) :
  fftconvolve unocc kernel = Ok U ->
  np_max (ravel U) = Ok norm ->
  fftconvolve occ kernel = Ok O ->
  (n < 0)%Z ->
  quick_contrast occ unocc n = Raise ValueError.
Proof.
  intros HU Hnorm HO Hn. rewrite quick_contrast_nf.
  rewrite HU. cbn [bind]. rewrite Hnorm. cbn [bind]. rewrite HO. cbn [bind].
  apply Z.ltb_lt in Hn. now rewrite Hn.
Qed.

Lemma X5_witness :
  quick_contrast (ones 5 5) (ones 7 7) (-1) = Raise ValueError.
Proof.
  apply (X5_negative_n_annuli (ones 5 5) (ones 7 7)
           (conv_valid (ones 7 7) kernel) (conv_valid (ones 5 5) kernel)
           (-1) 13).
  - apply fftconvolve_kernel; cbn; lia.
  - exact norm_ones7.
  - apply fftconvolve_kernel; cbn; lia.
  - lia.
Defined.

(** * Occupied annuli *)

Section Occupied.

(** Moving one pixel along an axis changes the distance to a point by at most
    one. *)
Lemma sqrt_step (x y y' : R) :
  -1 <= y - y' <= 1 -> sqrt (x ^ 2 + y ^ 2) <= sqrt (x ^ 2 + y' ^ 2) + 1.
Proof.
  intros Hd.
  assert (0 <= x ^ 2 + y ^ 2) as Hy by (pose proof (pow2_ge_0 x); pose proof (pow2_ge_0 y); lra).
  assert (0 <= x ^ 2 + y' ^ 2) as Hy' by (pose proof (pow2_ge_0 x); pose proof (pow2_ge_0 y'); lra).
  pose proof (sqrt_pos (x ^ 2 + y ^ 2)) as HA.
  pose proof (sqrt_pos (x ^ 2 + y' ^ 2)) as HB.
  pose proof (sqrt_sqrt _ Hy) as EA. pose proof (sqrt_sqrt _ Hy') as EB.
  set (A := sqrt (x ^ 2 + y ^ 2)) in *. set (B := sqrt (x ^ 2 + y' ^ 2)) in *.
  assert (y' <= B) as H1 by nra.
  assert (- y' <= B) as H2 by nra.
  apply Rsqr_incr_0_var; [| lra]. unfold Rsqr. nra.
Qed.

Lemma radial_step_col (r c i j : nat) :
  radial r c i j <= radial r c i (S j) + 1.
Proof.
  unfold radial. apply sqrt_step. rewrite S_INR. lra.
Qed.

Lemma radial_step_row (r c i j : nat) :
  radial r c i j <= radial r c (S i) j + 1.
Proof.
  unfold radial.
  rewrite (Rplus_comm ((INR i - INR r / 2) ^ 2)),
          (Rplus_comm ((INR (S i) - INR r / 2) ^ 2)).
  apply sqrt_step. rewrite S_INR. lra.
Qed.

Lemma half_offset (m : nat) : (INR (m / 2) - INR m / 2) ^ 2 <= 1 / 4.
Proof.
  pose proof (Nat.div_mod_eq m 2) as E.
  pose proof (Nat.mod_upper_bound m 2 ltac:(lia)) as Hlt.
  assert (INR m = 2 * INR (m / 2) + INR (m mod 2)) as EI.
  { rewrite E at 1. rewrite plus_INR, mult_INR. cbn [INR]. lra. }
  assert (0 <= INR (m mod 2) <= 1) as Hb.
  { split; [apply pos_INR |]. change 1 with (INR 1). apply le_INR. lia. }
  rewrite EI. nra.
Qed.

(** The pixel [(r / 2, c / 2)] is less than one pixel away from
    [shape / 2]. *)
Lemma radial_middle (r c : nat) : radial r c (r / 2) (c / 2) < 1.
Proof.
  unfold radial. rewrite <- sqrt_1. apply sqrt_lt_1_alt.
  pose proof (half_offset r). pose proof (half_offset c).
  pose proof (pow2_ge_0 (INR (r / 2) - INR r / 2)).
  pose proof (pow2_ge_0 (INR (c / 2) - INR c / 2)). lra.
Qed.

(** Walking from a pixel towards the corner (0, 0), first along its row and
    then along column 0, the distance grows by at most one per step and ends
    at the maximum: no interval at least one pixel wide below the maximum is
    stepped over. *)
Lemma walk_to_corner (r c : nat) (a w : R) (m : nat) :
  1 <= w -> a <= radial r c 0 0 ->
  forall i j, (i + j = m)%nat -> (i < r)%nat -> (j < c)%nat ->
    radial r c i j < a + w ->
    exists i' j', (i' < r)%nat /\ (j' < c)%nat /\
                  a <= radial r c i' j' < a + w.
Proof.
  intros Hw Ha. induction m as [| m IH]; intros i j Hm Hi Hj Hlt.
  - assert (i = 0%nat) by lia. assert (j = 0%nat) by lia. subst.
    exists 0%nat, 0%nat. repeat split; try assumption.
  - destruct (Rle_lt_dec a (radial r c i j)) as [Hge | Hbelow].
    + exists i, j. repeat split; assumption.
    + destruct j as [| j].
      * destruct i as [| i]; [lia |].
        apply (IH i 0%nat); try lia.
        pose proof (radial_step_row r c i 0). lra.
      * apply (IH i j); try lia.
        pose proof (radial_step_col r c i j). lra.
Qed.

Lemma seq_sorted (s n : nat) : StronglySorted lt (seq s n).
Proof.
  revert s. induction n as [| n IH]; intros s; cbn [seq]; constructor.
  - apply IH.
  - apply Forall_forall. intros x Hx. apply in_seq in Hx. lia.
Qed.

(** Strictly increasing lists with the same elements are equal. *)
Lemma sorted_ext (l1 l2 : list nat) :
  StronglySorted lt l1 -> StronglySorted lt l2 ->
  (forall x, In x l1 <-> In x l2) -> l1 = l2.
Proof.
  intros H1. revert l2. induction H1 as [| a1 t1 Hs1 IH Hall1]; intros l2 H2 Hext.
  - destruct l2 as [| a2 t2]; [reflexivity |].
    exfalso. apply (Hext a2). now left.
  - destruct H2 as [| a2 t2 Hs2 Hall2].
    + exfalso. apply (Hext a1). now left.
    + rewrite Forall_forall in Hall1, Hall2.
      assert (a1 = a2) as ->.
      { pose proof (proj1 (Hext a1) (or_introl eq_refl)) as [E | Hin1];
          [now symmetry |].
        pose proof (proj2 (Hext a2) (or_introl eq_refl)) as [E | Hin2];
          [exact E |].
        specialize (Hall1 a2 Hin2). specialize (Hall2 a1 Hin1). lia. }
      f_equal. apply IH; [exact Hs2 |]. intros x. split; intros Hx.
      * destruct (proj1 (Hext x) (or_intror Hx)) as [E | Hin]; [| exact Hin].
        specialize (Hall1 x Hx). lia.
      * destruct (proj2 (Hext x) (or_intror Hx)) as [E | Hin]; [| exact Hin].
        specialize (Hall2 x Hx). lia.
Qed.

Variables (r c : nat) (n : Z).
Hypothesis Hr : (1 <= r)%nat.
Hypothesis Hc : (1 <= c)%nat.
Hypothesis Hn : (2 <= n)%Z.
Hypothesis Hwide : INR (Z.to_nat n - 1) <= radial r c 0 0.

Lemma bin_width_ge_1 : 1 <= radial r c 0 0 / INR (Z.to_nat n - 1).
Proof.
  assert (0 < INR (Z.to_nat n - 1)) as Hpos by (apply lt_0_INR; lia).
  apply Rmult_le_reg_r with (r := INR (Z.to_nat n - 1)); [exact Hpos |].
  unfold Rdiv. rewrite Rmult_assoc, Rinv_l by lra. lra.
Qed.

(** When the bins are at least one pixel wide, every index from 1 to
    [n_annuli] is the index of some pixel. *)
Lemma every_index_occupied (k : nat) :
  (1 <= k <= Z.to_nat n)%nat ->
  In k (annuli_values r c (grid_bins r c n)).
Proof.
  intros Hk. apply annuli_values_In.
  destruct (Nat.eq_dec k (Z.to_nat n)) as [-> | Hne].
  - exists 0%nat, 0%nat. repeat split; try lia.
    apply annuli_inds_corner; try assumption; try lia. reflexivity.
  - assert (k < Z.to_nat n)%nat as Hlt by lia.
    set (w := radial r c 0 0 / INR (Z.to_nat n - 1)).
    pose proof bin_width_ge_1 as Hw. fold w in Hw.
    assert (nth (k - 1) (grid_bins r c n) 0 = INR (k - 1) * w) as Elo
      by (unfold grid_bins; apply edges_nth; lia).
    assert (nth k (grid_bins r c n) 0 = INR (k - 1) * w + w) as Ehi.
    { unfold grid_bins. rewrite edges_nth by lia. fold w.
      replace k with (S (k - 1)) at 1 by lia. rewrite S_INR. ring. }
    assert (INR (k - 1) * w <= radial r c 0 0) as Ha.
    { assert (0 < INR (Z.to_nat n - 1)) as Hpos by (apply lt_0_INR; lia).
      replace (radial r c 0 0) with (INR (Z.to_nat n - 1) * w)
        by (unfold w; field; lra).
      apply Rmult_le_compat_r; [lra |]. apply le_INR. lia. }
    destruct (walk_to_corner r c (INR (k - 1) * w) w (r / 2 + c / 2) Hw Ha
                (r / 2) (c / 2) eq_refl) as (i & j & Hi & Hj & Hbetween).
    + apply Nat.div_lt; lia.
    + apply Nat.div_lt; lia.
    + pose proof (radial_middle r c). pose proof (pos_INR (k - 1)). nra.
    + exists i, j. repeat split; try assumption.
      apply annuli_inds_iff; try assumption; [lia |].
      rewrite Elo, Ehi. exact Hbetween.
Qed.

Lemma unique_is_seq :
  np_unique (annuli_values r c (grid_bins r c n)) = seq 1 (Z.to_nat n).
Proof.
  apply sorted_ext; [apply np_unique_sorted | apply seq_sorted |].
  intros k. rewrite np_unique_In, in_seq. split.
  - intros Hk. apply annuli_values_In in Hk.
    destruct Hk as (i & j & _ & _ & <-).
    pose proof (annuli_inds_range r c n Hr Hc Hn i j). lia.
  - intros Hk. apply every_index_occupied. lia.
Qed.

End Occupied.

(** X6.  When the bins are at least one pixel wide, that is when the largest
    radial distance is at least [n_annuli - 1], every annulus holds a pixel:
    [np.unique(annuli_inds)] is [1, ..., n_annuli], so [contrast] has exactly
    as many values as [radial_bins] has edges (what the plotting cells
    [plt.semilogy(radial_bins * pix_scale, contrast)] rely on), and
    [contrast[k]] is computed from the pixels of index [k + 1]: those at
    distance [radial_bins[k] <= d < radial_bins[k+1]], the last one from the
    pixels at the last edge. *)
Theorem X6_every_annulus_occupied
    (occ unocc U O : ndarray) (n : Z) (norm : R)
    (rb : list R) (cv : list fvalue) :
  fftconvolve unocc kernel = Ok U ->
  np_max (ravel U) = Ok norm ->
  fftconvolve occ kernel = Ok O ->
  quick_contrast occ unocc n = Ok (rb, cv) ->
  (2 <= n)%Z ->
  INR (Z.to_nat n - 1) <= radial (nrows U) (ncols U) 0 0 ->
  let r := nrows U in
  let c := ncols U in
  np_unique (annuli_values r c rb) = seq 1 (Z.to_nat n) /\
  length cv = length rb /\
  forall k, (k < Z.to_nat n)%nat ->
    nth k cv NaN = fdiv (np_std (annulus_select O r c rb (S k))) norm /\
    ((S k < Z.to_nat n)%nat ->
     forall p, In p (annulus_pixels r c rb (S k)) ->
       nth k rb 0 <= radial r c (fst p) (snd p) < nth (S k) rb 0).
Proof.
  intros HU Hnorm HO H Hn Hwide r c.
  destruct (quick_contrast_result occ unocc U O n norm rb cv HU Hnorm HO H)
    as (Hrb & Hcv & _ & _ & Hr & Hc).
  fold r c in Hrb, Hcv, Hr, Hc, Hwide. subst rb.
  pose proof (unique_is_seq r c n Hr Hc Hn Hwide) as Hseq.
  split; [exact Hseq |].
  split.
  { rewrite Hcv, contrast_of_length, Hseq, length_seq.
    symmetry. apply grid_bins_length. }
  intros k Hk. split.
  - rewrite Hcv, contrast_of_nth by (rewrite Hseq, length_seq; exact Hk).
    rewrite Hseq, seq_nth by exact Hk. reflexivity.
  - intros HSk [i j] Hp. unfold annulus_pixels in Hp.
    apply filter_In in Hp. destruct Hp as [_ Hp]. apply Nat.eqb_eq in Hp.
    cbn [fst snd] in *.
    apply (annuli_inds_iff r c n Hr Hc Hn i j (S k)) in Hp; [| lia].
    replace (S k - 1)%nat with k in Hp by lia. exact Hp.
Qed.

Lemma one_le_radial_3x3 : INR (Z.to_nat 2 - 1) <= radial 3 3 0 0.
Proof.
  change (Z.to_nat 2 - 1)%nat with 1%nat. unfold radial. cbn [INR].
  rewrite <- sqrt_1 at 1. apply sqrt_le_1_alt. lra.
Qed.

Lemma X6_witness :
  np_unique (annuli_values 3 3 (grid_bins 3 3 2)) = seq 1 2 /\
  length [Fin 0; Fin 0] = length (grid_bins 3 3 2).
Proof.
  pose proof
    (X6_every_annulus_occupied (one_pixel 7 7 3 3 10) (ones 7 7)
       (conv_valid (ones 7 7) kernel)
       (conv_valid (one_pixel 7 7 3 3 10) kernel)
       2 13 (grid_bins 3 3 2) [Fin 0; Fin 0]
       (fftconvolve_kernel (ones 7 7) ltac:(cbn; lia) ltac:(cbn; lia))
       norm_ones7
       (fftconvolve_kernel (one_pixel 7 7 3 3 10) ltac:(cbn; lia) ltac:(cbn; lia))
       quick_contrast_center10
       ltac:(lia) one_le_radial_3x3) as H.
  exact (conj (proj1 H) (proj1 (proj2 H))).
Defined.

(** * Offsets and factors *)

Section Offsets.










End Offsets.










(** * Mean subtraction and nan replacement *)

Section NanHandling.

Lemma finite_values_In (x : R) (l : list (option R)) :
  In x (finite_values l) <-> In (Some x) l.
Proof.
  unfold finite_values. rewrite in_flat_map. split.
  - intros ([y |] & Hin & Hx); [| destruct Hx].
    destruct Hx as [<- | []]. exact Hin.
  - intros Hin. exists (Some x). split; [exact Hin | now left].
Qed.

Lemma finite_values_map (f : R -> R) (l : list (option R)) :
  finite_values (map (option_map f) l) = map f (finite_values l).
Proof.
  induction l as [| [x |] l IH]; cbn [finite_values flat_map map option_map app].
  - reflexivity.
  - f_equal. exact IH.
  - exact IH.
Qed.

Lemma na_ravel_In (a : nanarray) (o : option R) :
  In o (na_ravel a) <->
  exists i j, (i < na_rows a)%nat /\ (j < na_cols a)%nat /\ na_at a i j = o.
Proof.
  unfold na_ravel. rewrite in_map_iff. split.
  - intros ([i j] & E & Hin). apply in_grid in Hin. exists i, j. tauto.
  - intros (i & j & Hi & Hj & E). exists (i, j). split; [exact E |].
    apply in_grid. tauto.
Qed.

Lemma na_ravel_sub_scalar (a : nanarray) (m : R) :
  na_ravel (sub_scalar a (Some m)) =
  map (option_map (fun x => x - m)) (na_ravel a).
Proof.
  unfold na_ravel. cbn [na_rows na_cols sub_scalar]. rewrite map_map.
  apply map_ext. intros [i j]. cbn [na_at sub_scalar fst snd].
  destruct (na_at a i j); reflexivity.
Qed.

Lemma np_nanmean_some (a : nanarray) (m : R) :
  np_nanmean a = Some m ->
  finite_values (na_ravel a) <> [] /\ m = np_mean (finite_values (na_ravel a)).
Proof.
  unfold np_nanmean. destruct (finite_values (na_ravel a)) as [| x l];
    [discriminate |].
  intros E. injection E as <-. split; [discriminate | reflexivity].
Qed.



Lemma np_nanmax_as_max (a : nanarray) :
  finite_values (na_ravel a) <> [] ->
  exists M, np_max (finite_values (na_ravel a)) = Ok M /\
            np_nanmax a = Ok (Some M).
Proof.
  intros Hne. unfold np_nanmax.
  destruct (na_ravel a) as [| o l] eqn:E; [cbn in Hne; congruence |].
  destruct (finite_values (o :: l)) as [| x l']; [congruence |].
  eexists. split; reflexivity.
Qed.

Lemma np_max_minus (v M : R) (l : list R) :
  np_max l = Ok M -> np_max (map (fun x => x - v) l) = Ok (M - v).
Proof.
  intros H. apply np_max_spec in H. destruct H as [Hin Hub].
  apply np_max_unique.
  - apply in_map_iff. now exists M.
  - intros y Hy. apply in_map_iff in Hy. destruct Hy as (x & <- & Hx).
    specialize (Hub x Hx). lra.
Qed.

Lemma finite_values_nonempty_map (f : R -> R) (l : list (option R)) :
  finite_values l <> [] -> finite_values (map (option_map f) l) <> [].
Proof.
  intros Hne E. rewrite finite_values_map in E.
  apply map_eq_nil in E. contradiction.
Qed.

End NanHandling.


(** X11.  The NIRCam cell that centres the reference and replaces its nans:
    when the reference has a pixel that is not nan, the result has the same
    shape and no nan inside it; a pixel [x] becomes [x - mean], and a nan
    pixel becomes [max - mean], the largest value of the centred image. *)
Theorem X11_centered_reference_clean (reference_slope : nanarray) (m : R) :
  np_nanmean reference_slope = Some m ->
  exists M out,
    np_nanmax reference_slope = Ok (Some M) /\
    centered_reference reference_slope = Ok out /\
    (na_rows out, na_cols out) =
      (na_rows reference_slope, na_cols reference_slope) /\
    (forall i j,
       na_at out i j =
       match na_at reference_slope i j with
       | Some x => Some (x - m)
       | None => Some (M - m)
       end) /\
    np_nanmax out = Ok (Some (M - m)).
Proof.
  intros Hm. destruct (np_nanmean_some reference_slope m Hm) as [Hne _].
  destruct (np_nanmax_as_max reference_slope Hne) as (M & HM & HnM).
  assert (np_nanmax (mean_subtract reference_slope) = Ok (Some (M - m))) as Hc.
  { unfold mean_subtract. rewrite Hm.
    destruct (np_nanmax_as_max (sub_scalar reference_slope (Some m)))
      as (M' & HM' & HnM').
    - rewrite na_ravel_sub_scalar. now apply finite_values_nonempty_map.
    - rewrite HnM'. rewrite na_ravel_sub_scalar, finite_values_map in HM'.
      rewrite (np_max_minus m M _ HM) in HM'. now injection HM' as <-. }
  exists M. eexists. split; [exact HnM |].
  unfold centered_reference. rewrite Hc. cbn [bind].
  split; [reflexivity |]. split; [reflexivity |]. split.
  - intros i j. unfold mean_subtract. rewrite Hm.
    cbn [na_at nan_fill sub_scalar]. destruct (na_at reference_slope i j); reflexivity.
  - set (out := nan_fill (mean_subtract reference_slope) (Some (M - m))).
    assert (forall x, In x (finite_values (na_ravel out)) <->
                      x = M - m /\ In None (na_ravel reference_slope) \/
                      exists y, In (Some y) (na_ravel reference_slope) /\ x = y - m)
      as Hvals.
    { intros x. rewrite finite_values_In, na_ravel_In. split.
      - intros (i & j & Hi & Hj & E). unfold out, mean_subtract in E.
        rewrite Hm in E. cbn [na_at nan_fill sub_scalar] in E.
        destruct (na_at reference_slope i j) as [y |] eqn:Ey.
        + right. exists y. split; [| congruence].
          apply na_ravel_In. exists i, j. tauto.
        + left. split; [congruence |]. apply na_ravel_In. exists i, j. tauto.
      - intros [[-> Hnan] | (y & Hy & ->)].
        + apply na_ravel_In in Hnan. destruct Hnan as (i & j & Hi & Hj & E).
          exists i, j. repeat split; try assumption.
          unfold out, mean_subtract. rewrite Hm.
          cbn [na_at nan_fill sub_scalar]. now rewrite E.
        + apply na_ravel_In in Hy. destruct Hy as (i & j & Hi & Hj & E).
          exists i, j. repeat split; try assumption.
          unfold out, mean_subtract. rewrite Hm.
          cbn [na_at nan_fill sub_scalar]. now rewrite E. }
    apply np_max_spec in HM. destruct HM as [HMin HMub].
    assert (In (M - m) (finite_values (na_ravel out))) as Hin.
    { apply Hvals. right. exists M. split; [now apply finite_values_In |
                                            reflexivity]. }
    destruct (np_nanmax_as_max out) as (M' & HM' & ->).
    { intros E. rewrite E in Hin. destruct Hin. }
    do 2 f_equal.
    rewrite (np_max_unique _ (M - m)) in HM'; [now injection HM' as <- | exact Hin |].
    intros x Hx. apply Hvals in Hx. destruct Hx as [[-> _] | (y & Hy & ->)]; [lra |].
    apply finite_values_In in Hy. specialize (HMub y Hy). lra.
Qed.


Lemma X11_witness :
  exists M out,
    np_nanmax saturated_sample = Ok (Some M) /\
    centered_reference saturated_sample = Ok out /\
    (na_rows out, na_cols out) = (2%nat, 2%nat) /\
    (forall i j,
       na_at out i j =
       match na_at saturated_sample i j with
       | Some x => Some (x - np_mean [3; 5; 4])
       | None => Some (M - np_mean [3; 5; 4])
       end) /\
    np_nanmax out = Ok (Some (M - np_mean [3; 5; 4])).
Proof.
  exact (X11_centered_reference_clean saturated_sample
           (np_mean [3; 5; 4]) eq_refl).
Defined.

Section Degenerate.

Lemma na_ravel_length (a : nanarray) :
  length (na_ravel a) = (na_rows a * na_cols a)%nat.
Proof. unfold na_ravel. now rewrite length_map, grid_length. Qed.

Lemma finite_values_none (l : list (option R)) :
  (forall o, In o l -> o = None) -> finite_values l = [].
Proof.
  induction l as [| o l IH]; intros H; [reflexivity |].
  cbn [finite_values flat_map]. rewrite (H o) by now left.
  apply IH. intros o' Ho'. apply H. now right.
Qed.

Lemma all_nan_no_values (a : nanarray) :
  (forall i j, (i < na_rows a)%nat -> (j < na_cols a)%nat -> na_at a i j = None) ->
  finite_values (na_ravel a) = [].
Proof.
  intros H. apply finite_values_none. intros o Ho.
  apply na_ravel_In in Ho. destruct Ho as (i & j & Hi & Hj & <-). now apply H.
Qed.

(** Replacing the nans by the maximum of the other pixels leaves that
    maximum as it is. *)
Lemma nan_fill_keeps_max (a : nanarray) (M : R) :
  np_max (finite_values (na_ravel a)) = Ok M ->
  np_nanmax (nan_fill a (Some M)) = Ok (Some M).
Proof.
  intros HM. apply np_max_spec in HM. destruct HM as [HMin HMub].
  set (out := nan_fill a (Some M)).
  assert (forall x, In x (finite_values (na_ravel out)) ->
                    x = M \/ In x (finite_values (na_ravel a))) as Hvals.
  { intros x Hx. apply finite_values_In, na_ravel_In in Hx.
    destruct Hx as (i & j & Hi & Hj & E). unfold out in E.
    cbn [na_at nan_fill] in E. destruct (na_at a i j) as [y |] eqn:Ey.
    - right. apply finite_values_In, na_ravel_In. exists i, j.
      repeat split; try assumption. congruence.
    - left. congruence. }
  assert (In M (finite_values (na_ravel out))) as Hin.
  { apply finite_values_In in HMin. apply na_ravel_In in HMin.
    destruct HMin as (i & j & Hi & Hj & E).
    apply finite_values_In, na_ravel_In. exists i, j.
    repeat split; try assumption. unfold out. cbn [na_at nan_fill].
    now rewrite E. }
  destruct (np_nanmax_as_max out) as (M' & HM' & ->).
  { intros E. rewrite E in Hin. destruct Hin. }
  do 2 f_equal.
  rewrite (np_max_unique _ M) in HM'; [now injection HM' as <- | exact Hin |].
  intros x Hx. apply Hvals in Hx. destruct Hx as [-> | Hx]; [lra | now apply HMub].
Qed.

End Degenerate.

(** X12.  The degenerate references.  On a zero-size image [np.nanmax]
    raises ValueError in both cells.  On an image whose pixels are all nan
    nothing is raised: [np.nanmean] and [np.nanmax] are nan, and the
    "cleaned" reference of either notebook is still nan everywhere. *)
Theorem X12_all_nan_reference (reference_slope : nanarray) :
  (forall i j, (i < na_rows reference_slope)%nat ->
               (j < na_cols reference_slope)%nat ->
               na_at reference_slope i j = None) ->
  match (na_rows reference_slope * na_cols reference_slope)%nat with
  | 0%nat =>
      centered_reference reference_slope = Raise ValueError /\
      clean_reference reference_slope = Raise ValueError
  | S _ =>
      np_nanmean reference_slope = None /\
      np_nanmax reference_slope = Ok None /\
      exists out out',
        centered_reference reference_slope = Ok out /\
        clean_reference reference_slope = Ok out' /\
        forall i j, (i < na_rows reference_slope)%nat ->
                    (j < na_cols reference_slope)%nat ->
                    na_at out i j = None /\ na_at out' i j = None
  end.
Proof.
  intros Hnan.
  pose proof (all_nan_no_values reference_slope Hnan) as Hnone.
  pose proof (na_ravel_length reference_slope) as Hlen.
  assert (np_nanmean reference_slope = None) as Hmean
    by (unfold np_nanmean; now rewrite Hnone).
  assert (na_ravel (mean_subtract reference_slope) =
          map (fun _ => None) (na_ravel reference_slope)) as Hrav.
  { unfold mean_subtract. rewrite Hmean. unfold na_ravel.
    cbn [na_rows na_cols sub_scalar]. rewrite map_map. apply map_ext.
    intros [i j]. cbn [na_at sub_scalar fst snd].
    destruct (na_at reference_slope i j); reflexivity. }
  destruct (na_rows reference_slope * na_cols reference_slope)%nat as [| k] eqn:Esz.
  - destruct (na_ravel reference_slope) as [| o l] eqn:Er; [| discriminate].
    split.
    + unfold centered_reference, np_nanmax. now rewrite Hrav.
    + unfold clean_reference, np_nanmax. now rewrite Er.
  - destruct (na_ravel reference_slope) as [| o l] eqn:Er; [discriminate |].
    assert (np_nanmax reference_slope = Ok None) as Hmax
      by (unfold np_nanmax; now rewrite Er, Hnone).
    assert (np_nanmax (mean_subtract reference_slope) = Ok None) as Hmax'.
    { unfold np_nanmax. rewrite Hrav. cbn [map].
      rewrite finite_values_none; [reflexivity |].
      intros o' Ho'. change (In o' (map (fun _ => None) (o :: l))) in Ho'.
      apply in_map_iff in Ho'. now destruct Ho' as (? & <- & _). }
    split; [exact Hmean |]. split; [exact Hmax |].
    do 2 eexists. split; [| split].
    + unfold centered_reference. rewrite Hmax'. reflexivity.
    + unfold clean_reference. rewrite Hmax. reflexivity.
    + intros i j Hi Hj. unfold mean_subtract. rewrite Hmean.
      cbn [na_at nan_fill sub_scalar]. rewrite (Hnan i j Hi Hj). now split.
Qed.

Lemma X12_witness :
  np_nanmean (all_nan 2 3) = None /\
  np_nanmax (all_nan 2 3) = Ok None /\
  exists out out',
    centered_reference (all_nan 2 3) = Ok out /\
    clean_reference (all_nan 2 3) = Ok out' /\
    forall i j, (i < 2)%nat -> (j < 3)%nat ->
                na_at out i j = None /\ na_at out' i j = None.
Proof.
  exact (X12_all_nan_reference (all_nan 2 3) (fun i j _ _ => eq_refl)).
Defined.

(** X13.  The MIRI cell that replaces the nans of the reference: when
    [np.nanmax] of the reference is a number [M], the cleaned copy has the
    shape of the reference, keeps every pixel that is not nan, holds [M] where
    the reference had nan, so it has no nan, and its maximum is still [M]. *)
Theorem X13_clean_reference (reference_slope : nanarray) (M : R) :
  np_nanmax reference_slope = Ok (Some M) ->
  exists out,
    clean_reference reference_slope = Ok out /\
    (na_rows out, na_cols out) =
      (na_rows reference_slope, na_cols reference_slope) /\
    (forall i j,
       na_at out i j =
       match na_at reference_slope i j with
       | Some x => Some x
       | None => Some M
       end) /\
    np_nanmax out = Ok (Some M).
Proof.
  intros HM. eexists. unfold clean_reference. rewrite HM. cbn [bind].
  split; [reflexivity |]. split; [reflexivity |]. split.
  - intros i j. reflexivity.
  - apply nan_fill_keeps_max. unfold np_nanmax in HM.
    destruct (na_ravel reference_slope) as [| o l]; [discriminate |].
    destruct (finite_values (o :: l)) as [| x l']; [discriminate |].
    injection HM as <-. reflexivity.
Qed.

Lemma X13_witness :
  exists out,
    clean_reference saturated_sample = Ok out /\
    (na_rows out, na_cols out) = (2%nat, 2%nat) /\
    (forall i j,
       na_at out i j =
       match na_at saturated_sample i j with
       | Some x => Some x
       | None => Some (Rmax (Rmax 3 5) 4)
       end) /\
    np_nanmax out = Ok (Some (Rmax (Rmax 3 5) 4)).
Proof.
  exact (X13_clean_reference saturated_sample (Rmax (Rmax 3 5) 4) eq_refl).
Defined.

(** * Transposed images *)

Section Transposed.













End Transposed.


